(** * PaymentMatrix: status synchronisation of payment links

    A shallow embedding of the server storage ([server/storage.ts]), the
    HTTP routes and page parser ([server/routes.ts]), the error classes
    ([server/errors.ts]) and the client channel and reconciliation
    interval ([client/src/hooks/use-payment-links.tsx],
    [client/src/components/payment-link-grid.tsx]).

    JavaScript strings are sequences of UTF-16 code units, modelled as
    [list N]; timestamps and numbers are [Z]; the [Map] of links is a
    [gmap Z PaymentLink]. *)

From Stdlib Require Import ZArith NArith List String Ascii Bool Lia.
From stdpp Require Import gmap list fin_maps sorting.
Import ListNotations.

Local Open Scope Z_scope.

(** ** JavaScript values *)

Abbreviation jsstring := (list N).

(** An ASCII literal of the source as code units. *)
Fixpoint lit (s : string) : jsstring :=
  match s with
  | EmptyString => []
  | String a s' => N_of_ascii a :: lit s'
  end.

(** A parameter or property of type [T | null | undefined]. *)
Inductive jsopt (A : Type) : Type :=
| undefined
| null
| val (a : A).
Arguments undefined {A}.
Arguments null {A}.
Arguments val {A} a.

(** [x ?? d]: the right operand is taken when [x] is [null] or
    [undefined]. The result is stored in a [T | null] column. *)
Definition nullish {A} (x : jsopt A) (d : option A) : option A :=
  match x with
  | val a => Some a
  | null | undefined => d
  end.

(** ** shared/schema.ts *)

Record PaymentLink : Type := mkPaymentLink {
  link_id : Z;
  userId : Z;
  url : jsstring;
  amount : Z;
  status : jsstring;
  errorCode : option jsstring;
  lastChecked : Z;
  transactionNo : option jsstring;
  amountAED : option jsstring;
  archived : bool
}.

Record InsertPaymentLink : Type := mkInsert {
  ins_url : jsstring;
  ins_amount : Z
}.

(** ** server/errors.ts *)

(** Thrown values. [PaymentLinkError] is the subclass of [AppError] with
    status code 400; [JsError] is a plain [Error]; [Thrown] is any other
    thrown value. *)
Inductive exn : Type :=
| JsError (message : jsstring)
| AppError (message : jsstring) (statusCode : Z) (code : option jsstring)
| PaymentLinkError (message : jsstring) (code : option jsstring)
| Thrown.

Record AppErr : Type := mkAppErr {
  err_message : jsstring;
  err_statusCode : Z;
  err_code : option jsstring
}.

Definition handleError (error : exn) : AppErr :=
  match error with
  | AppError m sc c => mkAppErr m sc c
  | PaymentLinkError m c => mkAppErr m 400 c
  | JsError m => mkAppErr m 500 None
  | Thrown => mkAppErr (lit "An unexpected error occurred") 500 None
  end.

(** ** Server state and its monad *)

(** A message handed to [broadcastUpdate('payment_link_update', data)]:
    the action and the link (or, for a delete, the link id). *)
Inductive update : Type :=
| UCreate (l : PaymentLink)
| UDelete (linkId : Z)
| UStatus (l : PaymentLink)
| UArchive (l : PaymentLink)
| URenew (l : PaymentLink).

(** The fields of [MemStorage] that concern links, and the messages
    broadcast so far (most recent first). *)
Record Server : Type := mkServer {
  paymentLinks : gmap Z PaymentLink;
  currentLinkId : Z;
  outbox : list update
}.

Inductive result (A : Type) : Type :=
| Ok (a : A)
| Throw (e : exn).
Arguments Ok {A} a.
Arguments Throw {A} e.

(** A computation reads and writes the server state and returns or
    throws; state changes made before a throw persist. *)
Definition M (A : Type) : Type := Server -> result A * Server.

Definition ret {A} (a : A) : M A := fun s => (Ok a, s).
Definition throw {A} (e : exn) : M A := fun s => (Throw e, s).
Definition bind {A B} (m : M A) (k : A -> M B) : M B :=
  fun s =>
    match m s with
    | (Ok a, s') => k a s'
    | (Throw e, s') => (Throw e, s')
    end.
Definition try_catch {A} (m : M A) (h : exn -> M A) : M A :=
  fun s =>
    match m s with
    | (Ok a, s') => (Ok a, s')
    | (Throw e, s') => h e s'
    end.

Notation "'let*' x ':=' c1 'in' c2" := (bind c1 (fun x => c2))
  (at level 10, x name, c1 at level 100, c2 at level 200).

Definition set_links (f : gmap Z PaymentLink -> gmap Z PaymentLink) : M unit :=
  fun s => (Ok tt, mkServer (f (paymentLinks s)) (currentLinkId s) (outbox s)).

Definition get_link (id : Z) : M (option PaymentLink) :=
  fun s => (Ok (paymentLinks s !! id), s).

(** ** server/storage.ts: MemStorage *)

Module Storage.

Definition not_found_or_unauthorized : exn :=
  JsError (lit "Payment link not found or unauthorized").
Definition not_found : exn :=
  JsError (lit "Payment link not found").

(** [Array.from(this.paymentLinks.values())]. A [Map] enumerates its
    entries in insertion order; the ids are handed out in increasing
    order and [set] on a stored key keeps the place of the entry, so the
    insertion order is the order of the ids. *)
Definition key_le (p q : Z * PaymentLink) : Prop := fst p <= fst q.

Definition key_le_dec (p q : Z * PaymentLink) : Decision (key_le p q) :=
  decide (fst p <= fst q).

Definition values (links : gmap Z PaymentLink) : list PaymentLink :=
  List.map snd (@merge_sort _ key_le key_le_dec (map_to_list links)).

(** [Array.from(this.paymentLinks.values()).filter(...)] *)
Definition getPaymentLinks (user : Z) : M (list PaymentLink) :=
  fun s =>
    (Ok (List.filter (fun link => userId link =? user)
           (values (paymentLinks s))), s).

Definition createPaymentLink (user : Z) (link : InsertPaymentLink) (now : Z)
  : M PaymentLink :=
  fun s =>
    let id := currentLinkId s in
    let paymentLink :=
      mkPaymentLink id user (ins_url link) (ins_amount link)
        (lit "active") None now None None false in
    (Ok paymentLink,
     mkServer (<[id := paymentLink]> (paymentLinks s)) (id + 1) (outbox s)).

Definition deletePaymentLink (id user : Z) : M unit :=
  let* link := get_link id in
  match link with
  | None => throw not_found_or_unauthorized
  | Some l =>
      if negb (userId l =? user) then throw not_found_or_unauthorized
      else set_links (delete id)
  end.

Definition updatePaymentLinkStatus (id : Z) (status' : jsstring)
  (errorCode' transactionNo' amountAED' : jsopt jsstring) (now : Z)
  : M PaymentLink :=
  let* link := get_link id in
  match link with
  | None => throw not_found
  | Some l =>
      let updated :=
        mkPaymentLink (link_id l) (userId l) (url l) (amount l)
          status'
          (nullish errorCode' None)
          now
          (nullish transactionNo' (transactionNo l))
          (nullish amountAED' (amountAED l))
          (archived l) in
      let* _ := set_links (insert id updated) in
      ret updated
  end.

Definition updatePaymentLinkUrl (id : Z) (url' : jsstring) : M PaymentLink :=
  let* link := get_link id in
  match link with
  | None => throw not_found
  | Some l =>
      let updated :=
        mkPaymentLink (link_id l) (userId l) url' (amount l) (status l)
          (errorCode l) (lastChecked l) (transactionNo l) (amountAED l)
          (archived l) in
      let* _ := set_links (insert id updated) in
      ret updated
  end.

Definition archivePaymentLink (id user : Z) : M PaymentLink :=
  let* link := get_link id in
  match link with
  | None => throw not_found_or_unauthorized
  | Some l =>
      if negb (userId l =? user) then throw not_found_or_unauthorized
      else
        let updated :=
          mkPaymentLink (link_id l) (userId l) (url l) (amount l) (status l)
            (errorCode l) (lastChecked l) (transactionNo l) (amountAED l)
            true in
        let* _ := set_links (insert id updated) in
        ret updated
  end.

End Storage.

(** ** server/routes.ts: the page parser *)

Module Parser.

Local Open Scope N_scope.

(** [String.prototype.includes]. *)
Fixpoint starts_with (p s : jsstring) : bool :=
  match p, s with
  | [], _ => true
  | a :: p', b :: s' => (a =? b) && starts_with p' s'
  | _ :: _, [] => false
  end.

Fixpoint includes (s sub : jsstring) : bool :=
  starts_with sub s ||
  match s with
  | [] => false
  | _ :: s' => includes s' sub
  end.

(** The character classes of the two patterns. Neither pattern has the
    [u] or [i] flag, so they work on code units. [\s] is the white space
    and line terminator code points of ECMAScript; [\d] is [0-9]. *)
Definition is_space (c : N) : bool :=
  ((9 <=? c) && (c <=? 13)) || (c =? 32) || (c =? 160) || (c =? 5760)
  || ((8192 <=? c) && (c <=? 8202)) || (c =? 8232) || (c =? 8233)
  || (c =? 8239) || (c =? 8287) || (c =? 12288) || (c =? 65279).

Definition is_digit (c : N) : bool := (48 <=? c) && (c <=? 57).

(** [[\d,.]] *)
Definition is_amount_char (c : N) : bool :=
  is_digit c || (c =? 44) || (c =? 46).

(** The fragment of regular expressions the source uses: characters,
    concatenation, greedy [+] and [*] on a character class, and one
    capturing group. *)
Inductive regex : Type :=
| Eps
| Chr (c : N)
| Cat (r1 r2 : regex)
| Plus (p : N -> bool)
| Star (p : N -> bool)
| Group (r : regex).

Definition text (l : jsstring) : regex :=
  fold_right (fun c r => Cat (Chr c) r) Eps l.

(** A matcher state: the input still to read and the capture of group 1. *)
Definition mstate : Type := jsstring * option jsstring.

(** Backtracking matcher in continuation-passing style: a quantifier
    first tries to take one more character and falls back to the
    continuation when the rest fails. *)
Fixpoint star (p : N -> bool) (k : mstate -> option mstate)
  (s : jsstring) (cap : option jsstring) : option mstate :=
  match s with
  | c :: s' =>
      if p c then
        match star p k s' cap with
        | Some r => Some r
        | None => k (s, cap)
        end
      else k (s, cap)
  | [] => k ([], cap)
  end.

Fixpoint matcher (r : regex) (k : mstate -> option mstate) (st : mstate)
  : option mstate :=
  match r with
  | Eps => k st
  | Chr c =>
      match fst st with
      | c' :: s' => if c =? c' then k (s', snd st) else None
      | [] => None
      end
  | Cat r1 r2 => matcher r1 (matcher r2 k) st
  | Plus p =>
      match fst st with
      | c :: s' => if p c then star p k s' (snd st) else None
      | [] => None
      end
  | Star p => star p k (fst st) (snd st)
  | Group r' =>
      matcher r'
        (fun st' =>
           k (fst st',
              Some (take (length (fst st) - length (fst st'))%nat (fst st))))
        st
  end.

(** [text.match(re)] for a pattern without the [g] flag: the leftmost
    start position at which the pattern matches. The result is the
    capture of group 1 ([None] for no match at all). *)
Fixpoint exec (r : regex) (s : jsstring) : option (option jsstring) :=
  match matcher r Some (s, None) with
  | Some st => Some (snd st)
  | None =>
      match s with
      | [] => None
      | _ :: s' => exec r s'
      end
  end.

(** A match result is an array (truthy) or [null]. *)
Definition matched (m : option (option jsstring)) : bool :=
  match m with
  | Some _ => true
  | None => false
  end.

(** [m?.[1]] *)
Definition group1 (m : option (option jsstring)) : jsopt jsstring :=
  match m with
  | Some (Some d) => val d
  | Some None | None => undefined
  end.

Definition failure_marker : jsstring := lit "Sorry, something went wrong".
Definition transaction_label : jsstring := lit "SP Transaction No".
Definition amount_label : jsstring := lit "Amount".
Definition currency_label : jsstring := lit "AED".

(** [/SP Transaction No\s+(\d+)/] *)
Definition transactionRe : regex :=
  Cat (text transaction_label) (Cat (Plus is_space) (Group (Plus is_digit))).

(** [/Amount\s+([\d,.]+)\s*AED/] *)
Definition amountRe : regex :=
  Cat (text amount_label)
    (Cat (Plus is_space)
       (Cat (Group (Plus is_amount_char))
          (Cat (Star is_space) (text currency_label)))).

Record CheckResult : Type := mkCheckResult {
  isActive : bool;
  res_transactionNo : jsopt jsstring;
  res_amountAED : jsopt jsstring;
  res_errorCode : jsopt jsstring
}.

(** The error code of a page that shows the failure marker
    (U+53D1 U+751F U+9519 U+8BEF). *)
Definition generic_failure_code : jsstring := [21457; 29983; 38169; 35823].

Definition invalid_format_message : jsstring :=
  [26080; 25928; 30340; 25903; 20184; 39029; 38754; 26684; 24335].
Definition fetch_failed_prefix : jsstring :=
  [33719; 21462; 25903; 20184; 39029; 38754; 22833; 36133; 58; 32].
Definition check_failed_prefix : jsstring :=
  [26816; 26597; 25903; 20184; 39029; 38754; 22833; 36133; 58; 32].
Definition unknown_error : jsstring := [26410; 30693; 38169; 35823].

Definition INVALID_FORMAT : jsstring := lit "INVALID_FORMAT".
Definition FETCH_ERROR : jsstring := lit "FETCH_ERROR".
Definition CHECK_ERROR : jsstring := lit "CHECK_ERROR".

(** The part of [checkPaymentPage] that works on the page text. *)
Definition parsePage (page : jsstring) : result CheckResult :=
  if includes page failure_marker then
    Ok (mkCheckResult false undefined undefined (val generic_failure_code))
  else
    let transactionMatch := exec transactionRe page in
    let amountMatch := exec amountRe page in
    if negb (matched transactionMatch) && negb (matched amountMatch) then
      Throw (PaymentLinkError invalid_format_message (Some INVALID_FORMAT))
    else
      Ok (mkCheckResult true (group1 transactionMatch) (group1 amountMatch)
            undefined).

(** What [fetch(url)] and [response.text()] give: a rejection (with the
    message of the error, when it is an [Error]), or a response. *)
Inductive fetched : Type :=
| Rejected (message : option jsstring)
| Response (ok : bool) (statusText : jsstring) (body : jsstring).

Definition checkPaymentPage (network : jsstring -> fetched) (url : jsstring)
  : result CheckResult :=
  let attempt :=
    match network url with
    | Rejected (Some m) => Throw (JsError m)
    | Rejected None => Throw Thrown
    | Response ok statusText body =>
        if negb ok then
          Throw (PaymentLinkError (fetch_failed_prefix ++ statusText)
                   (Some FETCH_ERROR))
        else parsePage body
    end in
  match attempt with
  | Ok r => Ok r
  | Throw (PaymentLinkError m c) => Throw (PaymentLinkError m c)
  | Throw (JsError m) | Throw (AppError m _ _) =>
      Throw (PaymentLinkError (check_failed_prefix ++ m) (Some CHECK_ERROR))
  | Throw Thrown =>
      Throw (PaymentLinkError (check_failed_prefix ++ unknown_error)
               (Some CHECK_ERROR))
  end.

End Parser.

(** ** server/routes.ts: the API routes *)

Module Routes.

Import Storage Parser.

Inductive response : Type :=
| SendStatus (statusCode : Z)
| JsonLinks (links : list PaymentLink)
| JsonLink (statusCode : Z) (link : PaymentLink)
| JsonError (statusCode : Z) (error : jsstring) (code : option jsstring).

(** Every client of [wss] that is open is sent the message: recorded in
    the outbox. A failing [send] is caught inside [broadcastUpdate]. *)
Definition broadcastUpdate (u : update) : M unit :=
  fun s => (Ok tt, mkServer (paymentLinks s) (currentLinkId s) (u :: outbox s)).

(** The [catch] block shared by the routes. *)
Definition respond_error (error : exn) : M response :=
  let appError := handleError error in
  ret (JsonError (err_statusCode appError) (err_message appError)
         (err_code appError)).

Definition lift {A} (r : result A) : M A := fun s => (r, s).

(** U+672A U+627E U+5230 U+652F U+4ED8 U+94FE U+63A5 *)
Definition link_not_found_message : jsstring :=
  [26410; 25214; 21040; 25903; 20184; 38142; 25509]%N.
Definition missing_url_message : jsstring :=
  [32570; 23569; 26032; 30340; 25903; 20184; 38142; 25509; 85; 82; 76]%N.
Definition forbidden_message : jsstring :=
  [26080; 26435; 25805; 20316; 27492; 25903; 20184; 38142; 25509]%N.

Definition NOT_FOUND : jsstring := lit "NOT_FOUND".
Definition UNAUTHORIZED : jsstring := lit "UNAUTHORIZED".
Definition VALIDATION_ERROR : jsstring := lit "VALIDATION_ERROR".

(** In every route [user] is [None] when [req.isAuthenticated()] is
    false and [Some req.user.id] otherwise; [id] is [parseInt] of the
    route parameter (a parameter that is not a number equals no link id
    and behaves as an id that is not stored). *)

Definition getLinks (user : option Z) : M response :=
  match user with
  | None => ret (SendStatus 401)
  | Some uid =>
      try_catch
        (let* links := getPaymentLinks uid in
         ret (JsonLinks links))
        respond_error
  end.

Definition deleteLink (user : option Z) (id : Z) : M response :=
  match user with
  | None => ret (SendStatus 401)
  | Some uid =>
      try_catch
        (let* _ := deletePaymentLink id uid in
         let* _ := broadcastUpdate (UDelete id) in
         ret (SendStatus 204))
        respond_error
  end.

(** [probe] is [checkPaymentPage] with the network it fetches from. *)
Definition postCheck (probe : jsstring -> result CheckResult)
  (user : option Z) (id : Z) (now : Z) : M response :=
  match user with
  | None => ret (SendStatus 401)
  | Some uid =>
      try_catch
        (let* links := getPaymentLinks uid in
         match List.find (fun l => link_id l =? id) links with
         | None =>
             throw (PaymentLinkError link_not_found_message (Some NOT_FOUND))
         | Some link =>
             let* checkResult := lift (probe (url link)) in
             let* updated :=
               updatePaymentLinkStatus (link_id link)
                 (if isActive checkResult then lit "active" else lit "error")
                 (res_errorCode checkResult)
                 (res_transactionNo checkResult)
                 (res_amountAED checkResult)
                 now in
             let* _ := broadcastUpdate (UStatus updated) in
             ret (JsonLink 200 updated)
         end)
        respond_error
  end.

Definition postArchive (user : option Z) (id : Z) : M response :=
  match user with
  | None => ret (SendStatus 401)
  | Some uid =>
      try_catch
        (let* archivedLink := archivePaymentLink id uid in
         let* _ := broadcastUpdate (UArchive archivedLink) in
         ret (JsonLink 200 archivedLink))
        respond_error
  end.

(** [body_url] is [req.body.url]: [None] when it is missing. An empty
    string is falsy as well. *)
Definition postRenew (user : option Z) (id : Z) (body_url : option jsstring)
  (now : Z) : M response :=
  match user with
  | None => ret (SendStatus 401)
  | Some uid =>
      try_catch
        (match body_url with
         | None | Some [] =>
             throw (PaymentLinkError missing_url_message
                      (Some VALIDATION_ERROR))
         | Some url' =>
             let* links := getPaymentLinks uid in
             match List.find (fun l => link_id l =? id) links with
             | None =>
                 throw (PaymentLinkError link_not_found_message
                          (Some NOT_FOUND))
             | Some link =>
                 if negb (userId link =? uid) then
                   throw (PaymentLinkError forbidden_message
                            (Some UNAUTHORIZED))
                 else
                   let* updated := updatePaymentLinkUrl id url' in
                   let* resetLink :=
                     updatePaymentLinkStatus id (lit "active")
                       null null null now in
                   let* _ := broadcastUpdate (URenew resetLink) in
                   ret (JsonLink 200 resetLink)
             end
         end)
        respond_error
  end.

End Routes.

(** ** Stored links are filed under their own id *)

Definition wf (s : Server) : Prop :=
  forall k l, paymentLinks s !! k = Some l -> link_id l = k.

(** A sample state: one link of user 1 whose last check failed after an
    earlier check had recorded a transaction and an amount. *)
Definition sample_link : PaymentLink :=
  mkPaymentLink 1 1 (lit "https://pay.example/old") 10000 (lit "error")
    (Some Parser.generic_failure_code) 0
    (Some (lit "12345")) (Some (lit "100.00")) false.

Definition sample_server : Server :=
  mkServer {[ 1 := sample_link ]} 2 [].

(** ** client/src/hooks/use-payment-links.tsx: the channel *)

Module Channel.

Inductive readyState : Type := CONNECTING | OPEN | CLOSING | CLOSED.

(** The module variables [ws] and [reconnectAttempts], and what the
    browser holds: every [WebSocket] created so far (in creation order,
    [ws] refers to one by its position; each carries the handlers that
    [connectWebSocket] installs), the pending
    [setTimeout(connectWebSocket, delay)] calls (oldest first), the
    reconnection lines written to the console (attempt number and delay)
    and the number of [invalidateQueries] calls. *)
Record Client : Type := mkClient {
  ws : option nat;
  reconnectAttempts : Z;
  sockets : list readyState;
  timers : list Z;
  console : list (Z * Z);
  invalidations : nat
}.

Definition MAX_RECONNECT_ATTEMPTS : Z := 5.
Definition RECONNECT_DELAY : Z := 1000.

Definition init : Client := mkClient None 0 [] [] [] 0.

(** [ws?.readyState] *)
Definition ws_readyState (c : Client) : option readyState :=
  match ws c with
  | Some i => sockets c !! i
  | None => None
  end.

Definition connectWebSocket (c : Client) : Client :=
  match ws_readyState c with
  | Some OPEN => c
  | Some CONNECTING => c
  | _ =>
      mkClient (Some (length (sockets c))) (reconnectAttempts c)
        (sockets c ++ [CONNECTING]) (timers c) (console c) (invalidations c)
  end.

Definition onopen (c : Client) : Client :=
  mkClient (ws c) 0 (sockets c) (timers c) (console c) (invalidations c).

(** [is_update] says whether the message parses to an object whose
    [type] is ['payment_link_update']. *)
Definition onmessage (is_update : bool) (c : Client) : Client :=
  if is_update then
    mkClient (ws c) (reconnectAttempts c) (sockets c) (timers c) (console c)
      (S (invalidations c))
  else c.

Definition onclose (c : Client) : Client :=
  if reconnectAttempts c <? MAX_RECONNECT_ATTEMPTS then
    let attempts := reconnectAttempts c + 1 in
    let delay := RECONNECT_DELAY * 2 ^ (attempts - 1) in
    mkClient None attempts (sockets c) (timers c ++ [delay])
      (console c ++ [(attempts, delay)]) (invalidations c)
  else
    mkClient None (reconnectAttempts c) (sockets c) (timers c) (console c)
      (invalidations c).

Definition set_readyState (i : nat) (r : readyState) (c : Client) : Client :=
  mkClient (ws c) (reconnectAttempts c) (<[i := r]> (sockets c)) (timers c)
    (console c) (invalidations c).

(** The cleanup of the effect in [usePaymentLinks]; [ws.close()] moves
    the socket to CLOSING, its close event comes later. *)
Definition cleanup (c : Client) : Client :=
  match ws c, ws_readyState c with
  | Some i, Some OPEN =>
      let c' := set_readyState i CLOSING c in
      mkClient None (reconnectAttempts c') (sockets c') (timers c')
        (console c') (invalidations c')
  | _, _ => c
  end.

(** What can happen to the client: the hook is mounted or unmounted, the
    browser delivers an event of a socket, a pending timer fires, or the
    server starts the closing handshake of an open socket (the browser
    then moves the socket to CLOSING; no handler runs, the close event
    comes later). *)
Inductive event : Type :=
| Mount
| Unmount
| SocketOpen (i : nat)
| SocketMessage (i : nat) (is_update : bool)
| SocketClose (i : nat)
| TimerFires (n : nat)
| SocketClosing (i : nat).

(** [None] when the browser cannot deliver the event in this state. *)
Definition step (e : event) (c : Client) : option Client :=
  match e with
  | Mount => Some (connectWebSocket c)
  | Unmount => Some (cleanup c)
  | SocketOpen i =>
      match sockets c !! i with
      | Some CONNECTING => Some (onopen (set_readyState i OPEN c))
      | _ => None
      end
  | SocketMessage i is_update =>
      match sockets c !! i with
      | Some OPEN => Some (onmessage is_update c)
      | _ => None
      end
  | SocketClose i =>
      match sockets c !! i with
      | Some CLOSED | None => None
      | Some _ => Some (onclose (set_readyState i CLOSED c))
      end
  | TimerFires n =>
      match timers c !! n with
      | Some _ =>
          Some (connectWebSocket
                  (mkClient (ws c) (reconnectAttempts c) (sockets c)
                     (delete n (timers c)) (console c) (invalidations c)))
      | None => None
      end
  | SocketClosing i =>
      match sockets c !! i with
      | Some OPEN => Some (set_readyState i CLOSING c)
      | _ => None
      end
  end.

Fixpoint run (es : list event) (c : Client) : option Client :=
  match es with
  | [] => Some c
  | e :: es' =>
      match step e c with
      | Some c' => run es' c'
      | None => None
      end
  end.

(** One connection attempt that fails at once: the socket [ws] refers to
    is closed by the browser, then the pending timer, if there is one,
    fires. Without a socket in flight nothing happens. *)
Definition failed_attempt (c : Client) : Client :=
  match ws c with
  | None => c
  | Some i =>
      match step (SocketClose i) c with
      | None => c
      | Some c1 =>
          match step (TimerFires 0) c1 with
          | None => c1
          | Some c2 => c2
          end
      end
  end.

Fixpoint failed_attempts (k : nat) (c : Client) : Client :=
  match k with
  | O => c
  | S k' => failed_attempts k' (failed_attempt c)
  end.

End Channel.

(** ** client/src/components/payment-link-grid.tsx: the interval *)

Module Grid.

(** The body of the [forEach]: the id [checkStatus] is called with, if
    it is called. An element of [links] may be [null]. *)
Definition check_issued (link : option PaymentLink) : option Z :=
  match link with
  | Some l => if negb (archived l) then Some (link_id l) else None
  | None => None
  end.

(** One run of the interval callback: the [checkStatus] calls made. *)
Fixpoint tick (links : list (option PaymentLink)) : list Z :=
  match links with
  | [] => []
  | link :: rest =>
      match check_issued link with
      | Some id => id :: tick rest
      | None => tick rest
      end
  end.

End Grid.

(** ** Vocabulary of the statements *)

(** *** Tokens of a page, stated on the text itself *)

Module Tokens.

Import Parser.

Local Open Scope N_scope.

(** The longest prefix of [s] in the class [p], and what follows it. *)
Fixpoint run_of (p : N -> bool) (s : jsstring) : jsstring :=
  match s with
  | c :: s' => if p c then c :: run_of p s' else []
  | [] => []
  end.

Fixpoint after_run (p : N -> bool) (s : jsstring) : jsstring :=
  match s with
  | c :: s' => if p c then after_run p s' else s
  | [] => []
  end.

(** [s] does not begin with a character of the class [p]. *)
Definition stops (p : N -> bool) (s : jsstring) : bool :=
  match s with
  | c :: _ => negb (p c)
  | [] => true
  end.

(** A non-empty string made of characters of the class [p]. *)
Definition word (p : N -> bool) (w : jsstring) : Prop :=
  w <> [] /\ forallb p w = true.

(** [s] begins with a transaction token [d]: the label, white space and
    then the digits [d], all the digits there are. *)
Definition transaction_at (s d : jsstring) : Prop :=
  exists sp rest,
    s = transaction_label ++ sp ++ d ++ rest /\
    word is_space sp /\ word is_digit d /\ stops is_digit rest = true.

(** [s] begins with an amount token [d]: the label, white space, the
    digits, commas and dots [d], optional white space and the currency. *)
Definition amount_at (s d : jsstring) : Prop :=
  exists sp sp' rest,
    s = amount_label ++ sp ++ d ++ sp' ++ currency_label ++ rest /\
    word is_space sp /\ word is_amount_char d /\ forallb is_space sp' = true.

(** The amount token in the words of the specification: a decimal number
    followed by the currency label. *)
Definition decimal (d : jsstring) : Prop :=
  exists whole frac, d = whole ++ [46] ++ frac /\
                     word is_digit whole /\ word is_digit frac.

Definition spec_amount_token (page d : jsstring) : Prop :=
  exists pre sp rest,
    page = pre ++ d ++ sp ++ currency_label ++ rest /\
    decimal d /\ forallb is_space sp = true.

(** The page has a token of the given kind somewhere. *)
Definition has_token (at_ : jsstring -> jsstring -> Prop) (page : jsstring)
  : Prop :=
  exists pre s d, page = pre ++ s /\ at_ s d.

(** [d] is the first token of its kind in the page: no token of that kind
    begins further left. *)
Definition first_token (at_ : jsstring -> jsstring -> Prop)
  (page d : jsstring) : Prop :=
  exists pre s,
    page = pre ++ s /\ at_ s d /\
    forall pre1 s1 d1,
      page = pre1 ++ s1 -> (length pre1 < length pre)%nat -> ~ at_ s1 d1.

(** What the result carries for one kind of token: the first token of
    the page when there is one, nothing otherwise. *)
Definition carries (at_ : jsstring -> jsstring -> Prop) (page : jsstring)
  (field : jsopt jsstring) : Prop :=
  match field with
  | val d => first_token at_ page d
  | undefined => ~ has_token at_ page
  | null => False
  end.

(** A continuation of the matcher that refuses every input beginning in
    the class [p], and one that accepts every input. *)
Definition refuses (p : N -> bool) (k : mstate -> option mstate) : Prop :=
  forall c s cap, p c = true -> k (c :: s, cap) = None.

Definition accepts (k : mstate -> option mstate) : Prop :=
  forall st, k st <> None.

(** The page contains the failure marker. *)
Definition has_marker (page : jsstring) : Prop :=
  exists pre post, page = pre ++ failure_marker ++ post.

Definition sample_page_success : jsstring :=
  lit "SP Transaction No 12345 ... Amount 100.00 AED".
Definition sample_page_amount_only : jsstring :=
  lit "Paid. Amount 1,250.50AED, thank you".
Definition sample_page_failed : jsstring :=
  lit "Sorry, something went wrong. Amount 5.00 AED".
Definition sample_page_unrelated : jsstring := lit "hello".
Definition sample_page_no_label : jsstring := lit "Total 5.00 AED".

End Tokens.

(** *** Stored links *)

(** The stored link [id] when it belongs to [user]. *)
Definition owned_link (s : Server) (user id : Z) : option PaymentLink :=
  match paymentLinks s !! id with
  | Some l => if userId l =? user then Some l else None
  | None => None
  end.

(** The link as a successful probe result rewrites it. *)
Definition applied (l : PaymentLink) (r : Parser.CheckResult) (now : Z)
  : PaymentLink :=
  mkPaymentLink (link_id l) (userId l) (url l) (amount l)
    (if Parser.isActive r then lit "active" else lit "error")
    (nullish (Parser.res_errorCode r) None)
    now
    (nullish (Parser.res_transactionNo r) (transactionNo l))
    (nullish (Parser.res_amountAED r) (amountAED l))
    (archived l).

(** The link as a renew leaves it. *)
Definition renewed (l : PaymentLink) (url' : jsstring) (now : Z)
  : PaymentLink :=
  mkPaymentLink (link_id l) (userId l) url' (amount l) (lit "active") None
    now (transactionNo l) (amountAED l) (archived l).

(** The link as the two storage updates rewrite it. *)
Definition with_status (l : PaymentLink) (status' : jsstring)
  (errorCode' transactionNo' amountAED' : jsopt jsstring) (now : Z)
  : PaymentLink :=
  mkPaymentLink (link_id l) (userId l) (url l) (amount l) status'
    (nullish errorCode' None) now
    (nullish transactionNo' (transactionNo l))
    (nullish amountAED' (amountAED l)) (archived l).

Definition with_url (l : PaymentLink) (url' : jsstring) : PaymentLink :=
  mkPaymentLink (link_id l) (userId l) url' (amount l) (status l)
    (errorCode l) (lastChecked l) (transactionNo l) (amountAED l)
    (archived l).

Definition archived_copy (l : PaymentLink) : PaymentLink :=
  mkPaymentLink (link_id l) (userId l) (url l) (amount l) (status l)
    (errorCode l) (lastChecked l) (transactionNo l) (amountAED l) true.

(** The state after [l] is stored under [id] and [u] is broadcast. *)
Definition stored (s : Server) (id : Z) (l : PaymentLink) (us : list update)
  : Server :=
  mkServer (<[id := l]> (paymentLinks s)) (currentLinkId s) (us ++ outbox s).

(** A link without its last-checked timestamp. *)
Definition erase_lastChecked (l : PaymentLink) : PaymentLink :=
  mkPaymentLink (link_id l) (userId l) (url l) (amount l) (status l)
    (errorCode l) 0 (transactionNo l) (amountAED l) (archived l).

(** An owner-scoped operation fails distinguishably when a missing
    target and a target of another owner give different failures. *)
Definition fails_distinguishably {A} (op : Z -> Z -> M A) : Prop :=
  forall s user missing foreign l,
    paymentLinks s !! missing = None ->
    paymentLinks s !! foreign = Some l -> userId l <> user ->
    fst (op missing user s) <> fst (op foreign user s).

(** A state with one link of user 1, just created. *)
Definition fresh_server : Server :=
  snd (Storage.createPaymentLink 1
         (mkInsert (lit "https://pay.example/p") 10000) 0
         (mkServer ∅ 1 [])).

(** Networks that answer every request with the same page. *)
Definition serves (page : jsstring) : jsstring -> Parser.fetched :=
  fun _ => Parser.Response true (lit "OK") page.

(** *** Traces of the channel *)

(** The hook is mounted, the connection opens, the view is closed, and
    the browser then delivers the close event of the socket. *)
Definition shutdown_trace : list Channel.event :=
  [Channel.Mount; Channel.SocketOpen 0; Channel.Unmount; Channel.SocketClose 0].

(** The hook is mounted and five connection attempts in a row fail at
    once: the first one and the four that the timers start. *)
Definition five_failures_trace : list Channel.event :=
  [Channel.Mount;
   Channel.SocketClose 0; Channel.TimerFires 0;
   Channel.SocketClose 1; Channel.TimerFires 0;
   Channel.SocketClose 2; Channel.TimerFires 0;
   Channel.SocketClose 3; Channel.TimerFires 0;
   Channel.SocketClose 4].

(** A link of the grid that has been archived. *)
Definition archived_link : PaymentLink := archived_copy sample_link.

(** ** server/storage.ts: the user methods of MemStorage *)

Module Users.

Record User : Type := mkUser {
  user_id : Z;
  username : jsstring;
  password : jsstring
}.

Record InsertUser : Type := mkInsertUser {
  ins_username : jsstring;
  ins_password : jsstring
}.

(** The fields of [MemStorage] that concern users. *)
Record UserStore : Type := mkUserStore {
  users : gmap Z User;
  usersByUsername : gmap jsstring User;
  currentUserId : Z
}.

(** The state the constructor builds. *)
Definition empty : UserStore := mkUserStore ∅ ∅ 1.

(** [this.users.get(id) || null]: a stored user is an object, never
    falsy. *)
Definition getUser (id : Z) (s : UserStore) : option User := users s !! id.

Definition getUserByUsername (name : jsstring) (s : UserStore) : option User :=
  usersByUsername s !! name.

Definition createUser (userData : InsertUser) (s : UserStore)
  : User * UserStore :=
  let id := currentUserId s in
  let user := mkUser id (ins_username userData) (ins_password userData) in
  (user,
   mkUserStore (<[id := user]> (users s))
     (<[ins_username userData := user]> (usersByUsername s))
     (id + 1)).

(** The two maps agree, and ids below the counter: what every state
    built by [createUser] from the empty one satisfies. *)
Definition indexed (s : UserStore) : Prop :=
  (forall k u, users s !! k = Some u -> user_id u = k /\ k < currentUserId s) /\
  (forall n u, usersByUsername s !! n = Some u ->
               username u = n /\ users s !! user_id u = Some u).

Definition alice : InsertUser := mkInsertUser (lit "alice") (lit "pw1").
Definition alice_again : InsertUser := mkInsertUser (lit "alice") (lit "pw2").

End Users.

(** ** server/routes.ts: the create route and the routing *)

Module Api.

Import Storage Parser Routes.

(** U+65E0 U+6548 U+7684 U+652F U+4ED8 U+94FE U+63A5 U+6570 U+636E *)
Definition invalid_data_message : jsstring :=
  [26080; 25928; 30340; 25903; 20184; 38142; 25509; 25968; 25454]%N.

(** [parsed] is the outcome of [insertPaymentLinkSchema.safeParse] on
    the request body: [None] when the body is refused, the data
    otherwise. *)
Definition postLink (user : option Z) (parsed : option InsertPaymentLink)
  (now : Z) : M response :=
  match user with
  | None => ret (SendStatus 401)
  | Some uid =>
      try_catch
        (match parsed with
         | None =>
             throw (PaymentLinkError invalid_data_message
                      (Some VALIDATION_ERROR))
         | Some data =>
             let* link := createPaymentLink uid data now in
             let* _ := broadcastUpdate (UCreate link) in
             ret (JsonLink 201 link)
         end)
        respond_error
  end.

(** The requests that [setupAPIRoutes] routes. *)
Inductive request : Type :=
| GET_links
| POST_link (parsed : option InsertPaymentLink) (now : Z)
| DELETE_link (id : Z)
| POST_check (id : Z) (now : Z)
| POST_archive (id : Z)
| POST_renew (id : Z) (body_url : option jsstring) (now : Z).

Definition handle (network : jsstring -> fetched) (user : option Z)
  (req : request) : M response :=
  match req with
  | GET_links => getLinks user
  | POST_link parsed now => postLink user parsed now
  | DELETE_link id => deleteLink user id
  | POST_check id now => postCheck (checkPaymentPage network) user id now
  | POST_archive id => postArchive user id
  | POST_renew id body_url now => postRenew user id body_url now
  end.

(** The responses of a request that was carried out. *)
Definition success (r : response) : bool :=
  match r with
  | SendStatus code => code =? 204
  | JsonLinks _ | JsonLink _ _ => true
  | JsonError _ _ _ => false
  end.

Definition mutates (req : request) : bool :=
  match req with
  | GET_links => false
  | _ => true
  end.

(** The code of an error response. *)
Definition error_code (r : response) : option jsstring :=
  match r with
  | JsonError _ _ code => code
  | _ => None
  end.

(** Link ids below the counter. *)
Definition below_counter (s : Server) : Prop :=
  forall k l, paymentLinks s !! k = Some l -> k < currentLinkId s.

(** Status and error code go together. *)
Definition status_ok (l : PaymentLink) : Prop :=
  (status l = lit "active" /\ errorCode l = None) \/
  (status l = lit "error" /\ exists e, errorCode l = Some e).

Definition all_status_ok (s : Server) : Prop :=
  forall k l, paymentLinks s !! k = Some l -> status_ok l.

(** The state the constructor of [MemStorage] builds. *)
Definition empty_server : Server := mkServer ∅ 1 [].

(** A state with the link of user 1 and a link of user 2. *)
Definition two_users_server : Server :=
  snd (createPaymentLink 2 (mkInsert (lit "https://pay.example/q") 500) 3
         fresh_server).

(** What the server must keep true of its links. *)
Definition invariant (s : Server) : Prop :=
  wf s /\ below_counter s /\ all_status_ok s.

(** A history of requests, each with the network of its time and the
    user of its session, and the state it leads to. *)
Fixpoint serve (reqs : list ((jsstring -> fetched) * option Z * request))
  (s : Server) : Server :=
  match reqs with
  | [] => s
  | (network, user, req) :: rest =>
      serve rest (snd (handle network user req s))
  end.

(** The link [createPaymentLink] builds in state [s]. *)
Definition created (s : Server) (uid : Z) (data : InsertPaymentLink)
  (now : Z) : PaymentLink :=
  mkPaymentLink (currentLinkId s) uid (ins_url data) (ins_amount data)
    (lit "active") None now None None false.

(** The ways a request can end: refused without effect, a listing, a
    link created, a link of the user deleted, or a link of the user
    replaced by a version of itself; each change with one broadcast. *)
Inductive transition (user : option Z) (s : Server)
  : response -> Server -> Prop :=
| t_refused resp :
    success resp = false -> transition user s resp s
| t_listed uid links :
    user = Some uid -> transition user s (JsonLinks links) s
| t_created uid data now :
    user = Some uid ->
    transition user s (JsonLink 201 (created s uid data now))
      (mkServer (<[currentLinkId s := created s uid data now]> (paymentLinks s))
         (currentLinkId s + 1)
         (UCreate (created s uid data now) :: outbox s))
| t_deleted uid id l :
    user = Some uid -> owned_link s uid id = Some l ->
    transition user s (SendStatus 204)
      (mkServer (delete id (paymentLinks s)) (currentLinkId s)
         (UDelete id :: outbox s))
| t_updated uid id l l' u :
    user = Some uid -> owned_link s uid id = Some l ->
    link_id l' = link_id l -> userId l' = userId l ->
    amount l' = amount l ->
    (archived l = true -> archived l' = true) ->
    (status_ok l -> status_ok l') ->
    transition user s (JsonLink 200 l') (stored s id l' [u]).

End Api.

(** ** client/src/components/payment-link-grid.tsx: the two tabs *)

Module View.

(** [[...links].sort(compare)]: the sort of an array is stable, and for
    a comparator that orders the links consistently its result is the
    one stable arrangement; insertion from the right builds it. *)
Fixpoint insert_sorted (compare : PaymentLink -> PaymentLink -> Z)
  (x : PaymentLink) (l : list PaymentLink) : list PaymentLink :=
  match l with
  | [] => [x]
  | y :: l' =>
      if compare x y <=? 0 then x :: l else y :: insert_sorted compare x l'
  end.

Fixpoint sort (compare : PaymentLink -> PaymentLink -> Z)
  (l : list PaymentLink) : list PaymentLink :=
  match l with
  | [] => []
  | x :: l' => insert_sorted compare x (sort compare l')
  end.

Definition compare (sortByAmount : bool) (a b : PaymentLink) : Z :=
  if negb sortByAmount then 0 else amount b - amount a.

Definition sortedLinks (sortByAmount : bool) (links : list PaymentLink)
  : list PaymentLink :=
  sort (compare sortByAmount) links.

Definition activeLinks (sortByAmount : bool) (links : list PaymentLink)
  : list PaymentLink :=
  List.filter (fun link => negb (archived link)) (sortedLinks sortByAmount links).

(** [in_range] is [None] when neither end of the date range is set, and
    otherwise the test of the date part of the filter on the
    last-checked timestamp of a link. *)
Definition filteredArchivedLinks (sortByAmount : bool)
  (in_range : option (Z -> bool)) (links : list PaymentLink)
  : list PaymentLink :=
  List.filter
    (fun link =>
       if negb (archived link) then false
       else
         match in_range with
         | None => true
         | Some test => test (lastChecked link)
         end)
    (sortedLinks sortByAmount links).

(** Amounts in descending order. *)
Fixpoint descending (l : list PaymentLink) : Prop :=
  match l with
  | [] => True
  | x :: l' => (forall y, In y l' -> amount y <= amount x) /\ descending l'
  end.

Definition cheap_link : PaymentLink :=
  mkPaymentLink 2 1 (lit "https://pay.example/c") 500 (lit "active") None 0
    None None false.

End View.

(** *** Invariants of the channel *)

Module ChannelInv.

Import Channel.

(** The counter stays within its ceiling and every pending delay is one
    of the five backoff steps. *)
Definition bounded (c : Client) : Prop :=
  0 <= reconnectAttempts c <= MAX_RECONNECT_ATTEMPTS /\
  Forall (fun d => RECONNECT_DELAY <= d <= 16 * RECONNECT_DELAY) (timers c).

(** Every socket that is not closed is the one [ws] refers to, and it is
    connecting or open. *)
Definition single (c : Client) : Prop :=
  forall i r, sockets c !! i = Some r ->
    r = CLOSED \/ (ws c = Some i /\ (r = CONNECTING \/ r = OPEN)).

(** The events that put a socket in the CLOSING state: the cleanup of
    the view and the start of a closing handshake by the server. *)
Definition begins_closing (e : event) : bool :=
  match e with
  | Unmount | SocketClosing _ => true
  | _ => false
  end.

(** The events that run no handler but [onmessage]: a message, or the
    start of a closing handshake. *)
Definition quiet (e : event) : bool :=
  match e with
  | SocketMessage _ _ | SocketClosing _ => true
  | _ => false
  end.

(** The number of update messages among the events of a trace. *)
Definition is_update_message (e : event) : bool :=
  match e with
  | SocketMessage _ true => true
  | _ => false
  end.

End ChannelInv.

(** ** server/routes.ts: the check route and its await *)

Module Await.

Import Storage Parser Routes.

(** What the requests served while a route awaits do to the state. *)
Definition meanwhile (during : Server -> Server) : M unit :=
  fun s => (Ok tt, during s).

(** The check route with the await of the fetch. The storage methods
    resolve at once, so nothing is served between the lookup and the
    throw of NOT_FOUND, nor between the update and the response; the
    fetch inside [checkPaymentPage] is awaited for real, and [during] is
    what the requests served in the meantime make of the state.
    [postCheck] is the run in which nothing is served meanwhile. *)
Definition postCheckAwait (probe : jsstring -> result CheckResult)
  (user : option Z) (id : Z) (now : Z) (during : Server -> Server)
  : M response :=
  match user with
  | None => ret (SendStatus 401)
  | Some uid =>
      try_catch
        (let* links := getPaymentLinks uid in
         match List.find (fun l => link_id l =? id) links with
         | None =>
             throw (PaymentLinkError link_not_found_message (Some NOT_FOUND))
         | Some link =>
             let* _ := meanwhile during in
             let* checkResult := lift (probe (url link)) in
             let* updated :=
               updatePaymentLinkStatus (link_id link)
                 (if isActive checkResult then lit "active" else lit "error")
                 (res_errorCode checkResult)
                 (res_transactionNo checkResult)
                 (res_amountAED checkResult)
                 now in
             let* _ := broadcastUpdate (UStatus updated) in
             ret (JsonLink 200 updated)
         end)
        respond_error
  end.

(** The user of the sample link deletes it. *)
Definition deleted_meanwhile (s : Server) : Server :=
  snd (deleteLink (Some 1) 1 s).

End Await.

(** ** Facts about the parser *)

Module ParserFacts.

Import Parser Tokens.

Local Open Scope N_scope.

Lemma starts_with_spec (p s : jsstring) :
  starts_with p s = true <-> exists post, s = p ++ post.
Proof.
  revert s. induction p as [|a p IH]; intros s; cbn [starts_with].
  - split; [intros _; exists s; reflexivity | reflexivity].
  - destruct s as [|b s].
    + split; [discriminate | intros [post H]; discriminate].
    + rewrite andb_true_iff, N.eqb_eq, IH. split.
      * intros [-> [post ->]]. exists post. reflexivity.
      * intros [post H]. injection H as -> ->. split; [reflexivity | eauto].
Qed.

Lemma includes_spec (s sub : jsstring) :
  includes s sub = true <-> exists pre post, s = pre ++ sub ++ post.
Proof.
  split.
  - induction s as [|c s IH]; cbn [includes]; rewrite orb_true_iff.
    + intros [H | H]; [|discriminate].
      apply starts_with_spec in H as [post ->]. exists [], post. reflexivity.
    + intros [H | H].
      * apply starts_with_spec in H as [post ->]. exists [], post. reflexivity.
      * destruct (IH H) as (pre & post & ->). exists (c :: pre), post.
        reflexivity.
  - intros (pre & post & ->). induction pre as [|c pre IH].
    + cbn [app]. destruct (sub ++ post) eqn:E; cbn [includes];
        apply orb_true_iff; left; apply starts_with_spec; exists post;
        symmetry; exact E.
    + cbn [app includes]. rewrite IH. apply orb_true_r.
Qed.

Lemma has_marker_includes (page : jsstring) :
  has_marker page <-> includes page failure_marker = true.
Proof. unfold has_marker. symmetry. apply includes_spec. Qed.

(** *** Runs of a character class *)

Lemma run_of_app p s : run_of p s ++ after_run p s = s.
Proof.
  induction s as [|c s IH]; cbn; [reflexivity|].
  destruct (p c); cbn; [f_equal; exact IH | reflexivity].
Qed.

Lemma run_of_all p s : forallb p (run_of p s) = true.
Proof.
  induction s as [|c s IH]; cbn; [reflexivity|].
  destruct (p c) eqn:E; cbn; [rewrite E, IH|]; reflexivity.
Qed.

Lemma after_run_stops p s : stops p (after_run p s) = true.
Proof.
  induction s as [|c s IH]; cbn; [reflexivity|].
  destruct (p c) eqn:E; cbn; [exact IH | rewrite E; reflexivity].
Qed.

Lemma run_unique p w rest :
  forallb p w = true -> stops p rest = true ->
  run_of p (w ++ rest) = w /\ after_run p (w ++ rest) = rest.
Proof.
  intros Hw Hr. induction w as [|c w IH]; cbn.
  - destruct rest as [|c rest]; cbn in *; [auto|].
    destruct (p c); [discriminate | auto].
  - cbn in Hw. apply andb_true_iff in Hw as [Hc Hw]. rewrite Hc.
    destruct (IH Hw) as [-> ->]. auto.
Qed.

(** A character that begins [w2 ++ rest] when [w2] is a word of [q]. *)
Lemma stops_word p q w rest :
  (forall c, q c = true -> p c = false) ->
  word q w -> stops p (w ++ rest) = true.
Proof.
  intros Hpq [Hne Hall]. destruct w as [|c w]; [congruence|].
  cbn in *. apply andb_true_iff in Hall as [Hc _].
  rewrite (Hpq c Hc). reflexivity.
Qed.

(** *** The matcher on the constructs of the two patterns *)

Lemma matcher_text l k s cap :
  matcher (text l) k (s, cap) =
  if starts_with l s then k (drop (length l) s, cap) else None.
Proof.
  revert s. induction l as [|a l IH]; intros s.
  - reflexivity.
  - cbn [text fold_right matcher fst snd starts_with].
    destruct s as [|b s]; [reflexivity|].
    destruct (a =? b); [|reflexivity].
    cbn [andb length drop]. apply IH.
Qed.

(** Under either condition the greedy choice is the only one that
    counts: the quantifier takes the whole run. *)
Lemma star_run p k s cap :
  refuses p k \/ accepts k ->
  star p k s cap = k (after_run p s, cap).
Proof.
  intros Hk. induction s as [|c s IH]; cbn [star after_run]; [reflexivity|].
  destruct (p c) eqn:E; [|reflexivity].
  rewrite IH. destruct (k (after_run p s, cap)) eqn:Ek; [reflexivity|].
  destruct Hk as [Hk | Hk].
  - apply Hk. exact E.
  - exfalso. exact (Hk _ Ek).
Qed.

Lemma matcher_plus p k s cap :
  refuses p k \/ accepts k ->
  matcher (Plus p) k (s, cap) =
  match run_of p s with
  | [] => None
  | _ :: _ => k (after_run p s, cap)
  end.
Proof.
  intros Hk. cbn [matcher fst snd]. destruct s as [|c s]; [reflexivity|].
  cbn [run_of after_run]. destruct (p c); [|reflexivity].
  apply star_run. exact Hk.
Qed.

Lemma matcher_star p k s cap :
  refuses p k \/ accepts k ->
  matcher (Star p) k (s, cap) = k (after_run p s, cap).
Proof. intros Hk. apply star_run. exact Hk. Qed.

(** *** The character classes are disjoint where the patterns need it *)

Ltac class_arith :=
  unfold is_amount_char, is_space, is_digit;
  rewrite ?orb_true_iff, ?andb_true_iff, ?orb_false_iff, ?andb_false_iff,
    ?N.leb_le, ?N.eqb_eq, ?N.leb_gt, ?N.eqb_neq;
  lia.

Lemma space_not_digit c : is_space c = true -> is_digit c = false.
Proof. class_arith. Qed.

Lemma digit_not_space c : is_digit c = true -> is_space c = false.
Proof. class_arith. Qed.

Lemma space_not_amount c : is_space c = true -> is_amount_char c = false.
Proof. class_arith. Qed.

Lemma amount_not_space c : is_amount_char c = true -> is_space c = false.
Proof. class_arith. Qed.

Lemma space_not_currency c : is_space c = true -> (65 =? c) = false.
Proof. class_arith. Qed.

Lemma amount_not_currency c : is_amount_char c = true -> (65 =? c) = false.
Proof. class_arith. Qed.

(** *** The continuations inside the two patterns *)

Lemma refuses_plus p q k :
  (forall c, p c = true -> q c = false) -> refuses p (matcher (Plus q) k).
Proof.
  intros Hpq c s cap Hc. cbn [matcher fst]. rewrite (Hpq c Hc). reflexivity.
Qed.

Lemma refuses_currency p k :
  (forall c, p c = true -> (65 =? c) = false) ->
  refuses p (matcher (text currency_label) k).
Proof.
  intros Hp c s cap Hc. rewrite matcher_text.
  change (starts_with currency_label (c :: s))
    with ((65 =? c) && starts_with (lit "ED") s).
  rewrite (Hp c Hc). reflexivity.
Qed.

Lemma matcher_cat r1 r2 k st :
  matcher (Cat r1 r2) k st = matcher r1 (matcher r2 k) st.
Proof. reflexivity. Qed.

Lemma matcher_group r k st :
  matcher (Group r) k st =
  matcher r
    (fun st' =>
       k (fst st',
          Some (take (length (fst st) - length (fst st'))%nat (fst st))))
    st.
Proof. reflexivity. Qed.

(** The capture of a group that took a whole run. *)
Lemma take_run p (s : jsstring) :
  take (length s - length (after_run p s))%nat s = run_of p s.
Proof.
  rewrite <- (run_of_app p s) at 1 3. rewrite length_app.
  replace (length (run_of p s) + length (after_run p s)
           - length (after_run p s))%nat
    with (length (run_of p s)) by lia.
  apply take_app_length.
Qed.

(** *** What the two patterns match at a given position *)

Lemma transaction_match s :
  matcher transactionRe Some (s, None) =
  if starts_with transaction_label s then
    let s1 := drop (length transaction_label) s in
    let s2 := after_run is_space s1 in
    match run_of is_space s1, run_of is_digit s2 with
    | _ :: _, _ :: _ => Some (after_run is_digit s2, Some (run_of is_digit s2))
    | _, _ => None
    end
  else None.
Proof.
  unfold transactionRe. rewrite matcher_cat, matcher_text.
  destruct (starts_with transaction_label s); [|reflexivity].
  cbv zeta. rewrite matcher_cat, matcher_plus.
  2:{ left. intros c s' cap Hc. rewrite matcher_group.
      exact (refuses_plus _ _ _ space_not_digit _ _ _ Hc). }
  destruct (run_of is_space _) as [|c sp]; [reflexivity|].
  rewrite matcher_group, matcher_plus by (right; intros st; discriminate).
  destruct (run_of is_digit _) as [|x d] eqn:E; [reflexivity|].
  cbn [fst]. rewrite take_run, E. reflexivity.
Qed.

Lemma amount_match s :
  matcher amountRe Some (s, None) =
  if starts_with amount_label s then
    let s1 := drop (length amount_label) s in
    let s2 := after_run is_space s1 in
    let s3 := after_run is_amount_char s2 in
    let s4 := after_run is_space s3 in
    match run_of is_space s1, run_of is_amount_char s2 with
    | _ :: _, _ :: _ =>
        if starts_with currency_label s4 then
          Some (drop (length currency_label) s4,
                Some (run_of is_amount_char s2))
        else None
    | _, _ => None
    end
  else None.
Proof.
  unfold amountRe. rewrite matcher_cat, matcher_text.
  destruct (starts_with amount_label s); [|reflexivity].
  cbv zeta. rewrite matcher_cat, matcher_plus.
  2:{ left. intros c s' cap Hc. rewrite matcher_cat, matcher_group.
      exact (refuses_plus _ _ _ space_not_amount _ _ _ Hc). }
  destruct (run_of is_space _) as [|c sp]; [reflexivity|].
  rewrite matcher_cat, matcher_group, matcher_plus.
  2:{ left. intros x s' cap Hx. cbn [fst]. rewrite matcher_cat, matcher_star.
      - cbn [after_run]. rewrite (amount_not_space x Hx).
        exact (refuses_currency _ _ amount_not_currency _ _ _ Hx).
      - left. apply refuses_currency, space_not_currency. }
  destruct (run_of is_amount_char _) as [|x d] eqn:E; [reflexivity|].
  cbn [fst]. rewrite matcher_cat, matcher_star
    by (left; apply refuses_currency, space_not_currency).
  rewrite matcher_text, take_run, E. reflexivity.
Qed.

Lemma starts_with_app (l rest : jsstring) : starts_with l (l ++ rest) = true.
Proof. apply starts_with_spec. eauto. Qed.

Lemma word_run p w rest :
  word p w -> stops p rest = true ->
  run_of p (w ++ rest) = w /\ after_run p (w ++ rest) = rest /\
  exists c w', w = c :: w'.
Proof.
  intros [Hne Hall] Hr. destruct (run_unique p w rest Hall Hr) as [-> ->].
  destruct w as [|c w']; [congruence | eauto].
Qed.

Lemma run_word p s c w : run_of p s = c :: w -> word p (run_of p s).
Proof. intros E. split; [congruence | apply run_of_all]. Qed.

Lemma stops_currency p rest :
  (forall c, p c = true -> (65 =? c) = false) ->
  stops p (currency_label ++ rest) = true.
Proof.
  intros Hp. change (currency_label ++ rest) with (65 :: lit "ED" ++ rest).
  cbn [stops]. destruct (p 65) eqn:E; [|reflexivity].
  apply Hp in E. discriminate.
Qed.

Lemma stops_app p q w rest :
  forallb p w = true -> (forall c, p c = true -> q c = false) ->
  stops q rest = true -> stops q (w ++ rest) = true.
Proof.
  intros Hw Hq Hs. destruct w as [|c w]; [exact Hs|].
  cbn in *. apply andb_true_iff in Hw as [Hc _]. rewrite (Hq c Hc). reflexivity.
Qed.

Lemma transaction_match_at s d :
  transaction_at s d ->
  exists rest, matcher transactionRe Some (s, None) = Some (rest, Some d).
Proof.
  intros (sp & rest & -> & Hsp & Hd & Hrest). exists rest.
  rewrite transaction_match, starts_with_app, drop_app_length. cbv zeta.
  destruct (word_run is_space sp (d ++ rest) Hsp) as (-> & -> & c & sp' & ->).
  { apply (stops_word is_space is_digit); [apply digit_not_space | exact Hd]. }
  destruct (word_run is_digit d rest Hd Hrest) as (-> & -> & x & d' & ->).
  reflexivity.
Qed.

Lemma transaction_match_Some s st :
  matcher transactionRe Some (s, None) = Some st ->
  exists d, snd st = Some d /\ transaction_at s d.
Proof.
  rewrite transaction_match.
  destruct (starts_with transaction_label s) eqn:El; [|discriminate].
  apply starts_with_spec in El as [s1 ->]. rewrite drop_app_length. cbv zeta.
  destruct (run_of is_space s1) as [|c sp] eqn:E1; [discriminate|].
  destruct (run_of is_digit _) as [|x d] eqn:E2; [discriminate|].
  intros [= <-]. exists (x :: d). split; [reflexivity|].
  exists (c :: sp), (after_run is_digit (after_run is_space s1)).
  rewrite <- E1, <- E2, run_of_app, run_of_app.
  split; [reflexivity|]. split; [eapply run_word; eauto|].
  split; [eapply run_word; eauto | apply after_run_stops].
Qed.

Lemma amount_match_at s d :
  amount_at s d ->
  exists rest, matcher amountRe Some (s, None) = Some (rest, Some d).
Proof.
  intros (sp & sp' & rest & -> & Hsp & Hd & Hsp'). exists rest.
  rewrite amount_match, starts_with_app, drop_app_length. cbv zeta.
  assert (Hstop : stops is_amount_char (sp' ++ currency_label ++ rest) = true).
  { apply (stops_app is_space);
      [exact Hsp' | apply space_not_amount
      | apply stops_currency, amount_not_currency]. }
  destruct (word_run is_space sp (d ++ sp' ++ currency_label ++ rest) Hsp)
    as (-> & -> & c & w & ->).
  { apply (stops_word is_space is_amount_char);
      [apply amount_not_space | exact Hd]. }
  destruct (word_run is_amount_char d _ Hd Hstop) as (-> & -> & x & d' & ->).
  destruct (run_unique is_space sp' (currency_label ++ rest) Hsp') as [_ ->].
  { apply stops_currency, space_not_currency. }
  rewrite starts_with_app, drop_app_length. reflexivity.
Qed.

Lemma amount_match_Some s st :
  matcher amountRe Some (s, None) = Some st ->
  exists d, snd st = Some d /\ amount_at s d.
Proof.
  rewrite amount_match.
  destruct (starts_with amount_label s) eqn:El; [|discriminate].
  apply starts_with_spec in El as [s1 ->]. rewrite drop_app_length. cbv zeta.
  destruct (run_of is_space s1) as [|c sp] eqn:E1; [discriminate|].
  destruct (run_of is_amount_char _) as [|x d] eqn:E2; [discriminate|].
  destruct (starts_with currency_label _) eqn:E3; [|discriminate].
  apply starts_with_spec in E3 as [rest E3].
  intros [= <-]. exists (x :: d). split; [reflexivity|].
  exists (c :: sp),
    (run_of is_space (after_run is_amount_char (after_run is_space s1))), rest.
  rewrite <- E1, <- E2, <- E3, !run_of_app.
  split; [reflexivity|]. split; [eapply run_word; eauto|].
  split; [eapply run_word; eauto | apply run_of_all].
Qed.

(** *** The leftmost match *)

Section Exec.

Variable r : regex.
Variable at_ : jsstring -> jsstring -> Prop.

Hypothesis match_Some :
  forall s st, matcher r Some (s, None) = Some st ->
               exists d, snd st = Some d /\ at_ s d.
Hypothesis match_at :
  forall s d, at_ s d ->
              exists rest, matcher r Some (s, None) = Some (rest, Some d).

Lemma no_match_here s d : matcher r Some (s, None) = None -> ~ at_ s d.
Proof. intros E H. destruct (match_at s d H) as [rest E']. congruence. Qed.

Lemma exec_None page : exec r page = None <-> ~ has_token at_ page.
Proof.
  induction page as [|c page IH]; cbn [exec].
  - destruct (matcher r Some ([], None)) as [st|] eqn:E.
    + split; [discriminate|]. intros H. exfalso. apply H.
      destruct (match_Some _ _ E) as (d & _ & Hd). exists [], [], d. auto.
    + split; [|reflexivity]. intros _ (pre & s & d & Hp & Hd).
      symmetry in Hp. apply app_eq_nil in Hp as [-> ->].
      exact (no_match_here _ _ E Hd).
  - destruct (matcher r Some (c :: page, None)) as [st|] eqn:E.
    + split; [discriminate|]. intros H. exfalso. apply H.
      destruct (match_Some _ _ E) as (d & _ & Hd).
      exists [], (c :: page), d. auto.
    + rewrite IH. split; intros H (pre & s & d & Hp & Hd); apply H.
      * destruct pre as [|c' pre]; cbn in Hp.
        -- subst s. destruct (no_match_here _ _ E Hd).
        -- injection Hp as -> ->. exists pre, s, d. auto.
      * exists (c :: pre), s, d. subst page. auto.
Qed.

Lemma exec_carries page : carries at_ page (group1 (exec r page)).
Proof.
  induction page as [|c page IH].
  - pose proof (exec_None []) as HN. cbn [exec] in *.
    destruct (matcher r Some ([], None)) as [st|] eqn:E.
    + destruct (match_Some _ _ E) as (d & -> & Hd). cbn.
      exists [], []. split; [reflexivity|]. split; [exact Hd|].
      intros pre1 s1 d1 _ Hlt. cbn in Hlt. lia.
    + cbn. apply HN. reflexivity.
  - cbn [exec]. destruct (matcher r Some (c :: page, None)) as [st|] eqn:E.
    + destruct (match_Some _ _ E) as (d & -> & Hd). cbn.
      exists [], (c :: page). split; [reflexivity|]. split; [exact Hd|].
      intros pre1 s1 d1 _ Hlt. cbn in Hlt. lia.
    + destruct (group1 (exec r page)) as [| |d]; cbn in *.
      * intros (pre & s & d & Hp & Hd). apply IH.
        destruct pre as [|c' pre]; cbn in Hp.
        -- subst s. destruct (no_match_here _ _ E Hd).
        -- injection Hp as -> ->. exists pre, s, d. auto.
      * exact IH.
      * destruct IH as (pre & s & -> & Hd & Hfirst).
        exists (c :: pre), s. split; [reflexivity|]. split; [exact Hd|].
        intros pre1 s1 d1 Hp Hlt. destruct pre1 as [|c' pre1]; cbn in Hp.
        -- subst s1. apply (no_match_here _ _ E).
        -- injection Hp as -> Hp. apply (Hfirst pre1 s1 d1 Hp).
           cbn in Hlt. lia.
Qed.

Lemma exec_Some page cap : exec r page = Some cap -> has_token at_ page.
Proof.
  induction page as [|c page IH]; cbn [exec].
  - destruct (matcher r Some ([], None)) as [st|] eqn:E; [|discriminate].
    intros _. destruct (match_Some _ _ E) as (d & _ & Hd).
    exists [], [], d. auto.
  - destruct (matcher r Some (c :: page, None)) as [st|] eqn:E.
    + intros _. destruct (match_Some _ _ E) as (d & _ & Hd).
      exists [], (c :: page), d. auto.
    + intros H. destruct (IH H) as (pre & s & d & -> & Hd).
      exists (c :: pre), s, d. auto.
Qed.

Lemma exec_matched page :
  matched (exec r page) = true <-> has_token at_ page.
Proof.
  pose proof (exec_None page) as HN. pose proof (exec_Some page) as HS.
  destruct (exec r page) as [cap|]; cbn.
  - split; [|reflexivity]. intros _. exact (HS cap eq_refl).
  - split; [discriminate|]. intros H. destruct HN as [HN _].
    destruct (HN eq_refl H).
Qed.

End Exec.

Lemma transaction_carries page :
  carries transaction_at page (group1 (exec transactionRe page)).
Proof.
  apply exec_carries; [apply transaction_match_Some | apply transaction_match_at].
Qed.

Lemma amount_carries page :
  carries amount_at page (group1 (exec amountRe page)).
Proof.
  apply exec_carries; [apply amount_match_Some | apply amount_match_at].
Qed.

Lemma transaction_matched page :
  matched (exec transactionRe page) = true <-> has_token transaction_at page.
Proof.
  apply exec_matched; [apply transaction_match_Some | apply transaction_match_at].
Qed.

Lemma amount_matched page :
  matched (exec amountRe page) = true <-> has_token amount_at page.
Proof.
  apply exec_matched; [apply amount_match_Some | apply amount_match_at].
Qed.

Lemma no_marker_includes page :
  ~ has_marker page -> includes page failure_marker = false.
Proof.
  intros H. destruct (includes page failure_marker) eqn:E; [|reflexivity].
  destruct H. apply has_marker_includes. exact E.
Qed.

(** A page with neither the marker nor a token makes the parser throw
    the format error. *)
Lemma parse_malformed page :
  ~ has_marker page ->
  ~ has_token transaction_at page -> ~ has_token amount_at page ->
  parsePage page =
  Throw (PaymentLinkError invalid_format_message (Some INVALID_FORMAT)).
Proof.
  intros Hm Ht Ha. unfold parsePage. rewrite (no_marker_includes page Hm).
  cbv zeta.
  destruct (matched (exec transactionRe page)) eqn:Et.
  { destruct Ht. apply transaction_matched. exact Et. }
  destruct (matched (exec amountRe page)) eqn:Ea.
  { destruct Ha. apply amount_matched. exact Ea. }
  reflexivity.
Qed.

(** C6: a page text that contains the failure marker parses to the
    failed result with the fixed generic error code, whatever else the
    text contains (success tokens included). *)
Theorem parse_failure_marker page :
  has_marker page ->
  parsePage page =
  Ok (mkCheckResult false undefined undefined (val generic_failure_code)).
Proof.
  intros H. unfold parsePage.
  apply has_marker_includes in H. rewrite H. reflexivity.
Qed.

Lemma parse_failure_marker_witness :
  has_token amount_at sample_page_failed /\
  parsePage sample_page_failed =
  Ok (mkCheckResult false undefined undefined (val generic_failure_code)).
Proof.
  split.
  - exists (lit "Sorry, something went wrong. "), (lit "Amount 5.00 AED"),
      (lit "5.00").
    split; [reflexivity|].
    exists (lit " "), (lit " "), [].
    repeat split; (reflexivity || discriminate).
  - apply (parse_failure_marker sample_page_failed).
    exists [], (lit ". Amount 5.00 AED"). reflexivity.
Defined.

(** C7, as stated, fails: a page without the failure marker that shows a
    decimal amount before the currency label, but not the label "Amount"
    before it, makes the parser throw the format error. *)
Lemma parse_amount_without_label :
  ~ has_marker sample_page_no_label /\
  spec_amount_token sample_page_no_label (lit "5.00") /\
  parsePage sample_page_no_label =
    Throw (PaymentLinkError invalid_format_message (Some INVALID_FORMAT)).
Proof.
  split; [|split].
  - intros H. apply has_marker_includes in H. vm_compute in H. discriminate.
  - exists (lit "Total "), (lit " "), []. split; [reflexivity|].
    split; [|reflexivity].
    exists (lit "5"), (lit "00").
    repeat split; (reflexivity || discriminate).
  - vm_compute. reflexivity.
Qed.

(** C7, amended: the tokens are those of the two patterns (digits after
    the label "SP Transaction No" and white space; digits, commas and
    dots after the label "Amount" and white space and before optional
    white space and "AED"). A page text without the failure marker and
    with at least one such token parses to the successful result; each of
    its two fields carries the first token of its kind in the text, and
    is undefined when the text has no token of that kind. *)
Theorem parse_success_tokens page :
  ~ has_marker page ->
  has_token transaction_at page \/ has_token amount_at page ->
  exists t a,
    parsePage page = Ok (mkCheckResult true t a undefined) /\
    carries transaction_at page t /\ carries amount_at page a.
Proof.
  intros Hm Htok.
  exists (group1 (exec transactionRe page)), (group1 (exec amountRe page)).
  split; [|split; [apply transaction_carries | apply amount_carries]].
  unfold parsePage. rewrite (no_marker_includes page Hm). cbv zeta.
  destruct Htok as [H | H].
  - apply transaction_matched in H. rewrite H. reflexivity.
  - apply amount_matched in H. rewrite H, andb_false_r. reflexivity.
Qed.

Lemma parse_success_tokens_witness :
  exists t a,
    parsePage sample_page_amount_only = Ok (mkCheckResult true t a undefined) /\
    carries transaction_at sample_page_amount_only t /\
    carries amount_at sample_page_amount_only a.
Proof.
  apply (parse_success_tokens sample_page_amount_only).
  - intros H. apply has_marker_includes in H. vm_compute in H. discriminate.
  - right.
    exists (lit "Paid. "), (lit "Amount 1,250.50AED, thank you"),
      (lit "1,250.50").
    split; [reflexivity|].
    exists (lit " "), [], (lit ", thank you").
    repeat split; (reflexivity || discriminate).
Defined.

Example parse_sample_success :
  parsePage sample_page_success =
  Ok (mkCheckResult true (val (lit "12345")) (val (lit "100.00")) undefined).
Proof. vm_compute. reflexivity. Qed.

Example parse_sample_amount_only :
  parsePage sample_page_amount_only =
  Ok (mkCheckResult true undefined (val (lit "1,250.50")) undefined).
Proof. vm_compute. reflexivity. Qed.

Example parse_sample_unrelated :
  parsePage sample_page_unrelated =
  Throw (PaymentLinkError invalid_format_message (Some INVALID_FORMAT)).
Proof. vm_compute. reflexivity. Qed.

End ParserFacts.

(** ** Facts about the storage and the routes *)

Module ServerFacts.

Import Storage Parser Routes Tokens ParserFacts.

Lemma values_In (links : gmap Z PaymentLink) l :
  In l (values links) <-> exists k, links !! k = Some l.
Proof.
  unfold values. rewrite in_map_iff. split.
  - intros ([k l'] & <- & Hin). exists k.
    apply elem_of_map_to_list, list_elem_of_In.
    apply (Permutation_in _
             (@merge_sort_Permutation _ key_le key_le_dec _)).
    exact Hin.
  - intros [k Hk]. exists (k, l). split; [reflexivity|].
    apply (Permutation_in _
             (Permutation_sym
                (@merge_sort_Permutation _ key_le key_le_dec _))).
    apply list_elem_of_In, elem_of_map_to_list. exact Hk.
Qed.

Lemma getPaymentLinks_In s user l :
  In l (List.filter (fun link => userId link =? user)
          (values (paymentLinks s))) <->
  (exists k, paymentLinks s !! k = Some l) /\ userId l = user.
Proof. rewrite filter_In, values_In, Z.eqb_eq. reflexivity. Qed.

(** The listing is in the order of the ids. *)
Lemma values_in_id_order s :
  wf s -> StronglySorted Z.le (List.map link_id (values (paymentLinks s))).
Proof.
  intros Hwf. unfold values.
  assert (Hs : StronglySorted key_le
                 (@merge_sort _ key_le key_le_dec
                    (map_to_list (paymentLinks s)))).
  { apply Sorted_StronglySorted.
    - intros x y z. unfold key_le. lia.
    - apply (@Sorted_merge_sort _ key_le key_le_dec).
      intros x y. unfold key_le. lia. }
  assert (Hin : forall p,
            In p (@merge_sort _ key_le key_le_dec
                    (map_to_list (paymentLinks s))) ->
            link_id (snd p) = fst p).
  { intros [k l] Hp. apply (Hwf k l).
    apply elem_of_map_to_list, list_elem_of_In.
    apply (Permutation_in _
             (@merge_sort_Permutation _ key_le key_le_dec _)).
    exact Hp. }
  induction Hs as [|p ps Hps IH Hall]; cbn; constructor.
  - apply IH. intros q Hq. apply Hin. right. exact Hq.
  - rewrite Forall_forall in Hall. apply Forall_forall.
    intros k Hk. apply list_elem_of_In in Hk.
    apply in_map_iff in Hk as (l & <- & Hl).
    apply in_map_iff in Hl as (q & <- & Hq).
    rewrite (Hin p (or_introl eq_refl)), (Hin q (or_intror Hq)).
    apply Hall. apply list_elem_of_In. exact Hq.
Qed.

(** Looking a link up by id in the user's own list. *)
Lemma find_owned s user id :
  wf s ->
  List.find (fun l => link_id l =? id)
    (List.filter (fun link => userId link =? user)
       (values (paymentLinks s))) =
  owned_link s user id.
Proof.
  intros Hwf. unfold owned_link.
  destruct (List.find _ _) as [l|] eqn:E.
  - apply find_some in E as [Hin Hid].
    apply getPaymentLinks_In in Hin as [[k Hk] Hu].
    apply Z.eqb_eq in Hid. rewrite <- Hid, (Hwf _ _ Hk), Hk.
    apply Z.eqb_eq in Hu. rewrite Hu. reflexivity.
  - destruct (paymentLinks s !! id) as [l|] eqn:Hl; [|reflexivity].
    destruct (userId l =? user) eqn:Hu; [|reflexivity].
    assert (Hin : In l (List.filter (fun link => userId link =? user)
                          (values (paymentLinks s)))).
    { apply getPaymentLinks_In. apply Z.eqb_eq in Hu. eauto. }
    pose proof (find_none _ _ E _ Hin) as Hno. cbn in Hno.
    rewrite (Hwf _ _ Hl), Z.eqb_refl in Hno. discriminate.
Qed.

Lemma owned_link_Some s user id l :
  wf s -> owned_link s user id = Some l ->
  paymentLinks s !! id = Some l /\ userId l = user /\ link_id l = id.
Proof.
  intros Hwf. unfold owned_link.
  destruct (paymentLinks s !! id) as [l'|] eqn:Hl; [|discriminate].
  destruct (userId l' =? user) eqn:Hu; [|discriminate].
  intros [= ->]. apply Z.eqb_eq in Hu. eauto.
Qed.

Lemma postCheck_spec probe user id now s :
  wf s ->
  postCheck probe (Some user) id now s =
  match owned_link s user id with
  | None => (Ok (JsonError 400 link_not_found_message (Some NOT_FOUND)), s)
  | Some l =>
      match probe (url l) with
      | Throw e => respond_error e s
      | Ok r =>
          let l' := applied l r now in
          (Ok (JsonLink 200 l'), stored s id l' [UStatus l'])
      end
  end.
Proof.
  intros Hwf. unfold postCheck, try_catch, bind, getPaymentLinks.
  rewrite (find_owned s user id Hwf).
  destruct (owned_link s user id) as [l|] eqn:Ho; [|reflexivity].
  destruct (owned_link_Some _ _ _ _ Hwf Ho) as (Hl & _ & Hid).
  unfold lift. destruct (probe (url l)) as [r|e]; [|reflexivity].
  unfold updatePaymentLinkStatus, bind, get_link. rewrite Hid, Hl.
  reflexivity.
Qed.

Lemma postRenew_spec user id url' now s :
  wf s -> url' <> [] ->
  postRenew (Some user) id (Some url') now s =
  match owned_link s user id with
  | None => (Ok (JsonError 400 link_not_found_message (Some NOT_FOUND)), s)
  | Some l =>
      let l' := renewed l url' now in
      (Ok (JsonLink 200 l'), stored s id l' [URenew l'])
  end.
Proof.
  intros Hwf Hurl. unfold postRenew, try_catch, bind, getPaymentLinks.
  destruct url' as [|c url']; [congruence|].
  rewrite (find_owned s user id Hwf).
  destruct (owned_link s user id) as [l|] eqn:Ho; [|reflexivity].
  destruct (owned_link_Some _ _ _ _ Hwf Ho) as (Hl & Hu & Hid).
  apply Z.eqb_eq in Hu. rewrite Hu. cbn [negb].
  unfold updatePaymentLinkUrl, updatePaymentLinkStatus, bind, get_link,
    set_links, ret, broadcastUpdate.
  rewrite Hl. cbn. rewrite lookup_insert_eq. cbn.
  unfold stored, renewed. cbn. rewrite insert_insert_eq. reflexivity.
Qed.

(** The check route around its await: the link is looked up before,
    the result is written onto the link as it is after. *)
Lemma postCheckAwait_spec probe user id now during s :
  wf s ->
  Await.postCheckAwait probe (Some user) id now during s =
  match owned_link s user id with
  | None => (Ok (JsonError 400 link_not_found_message (Some NOT_FOUND)), s)
  | Some l =>
      match probe (url l) with
      | Throw e => respond_error e (during s)
      | Ok r =>
          match paymentLinks (during s) !! id with
          | Some l1 =>
              (Ok (JsonLink 200 (applied l1 r now)),
               stored (during s) id (applied l1 r now)
                 [UStatus (applied l1 r now)])
          | None =>
              (Ok (JsonError 500 (lit "Payment link not found") None),
               during s)
          end
      end
  end.
Proof.
  intros Hwf. unfold Await.postCheckAwait, try_catch, bind, getPaymentLinks.
  rewrite (find_owned s user id Hwf).
  destruct (owned_link s user id) as [l|] eqn:Ho; [|reflexivity].
  destruct (owned_link_Some _ _ _ _ Hwf Ho) as (Hl & _ & Hid).
  unfold Await.meanwhile, lift. destruct (probe (url l)) as [r|e]; [|reflexivity].
  unfold updatePaymentLinkStatus, bind, get_link. rewrite Hid.
  destruct (paymentLinks (during s) !! id) as [l1|]; reflexivity.
Qed.

(** Without anything served meanwhile it is the route run in one go. *)
Lemma postCheckAwait_alone probe user id now s :
  Await.postCheckAwait probe user id now (fun s0 => s0) s =
  postCheck probe user id now s.
Proof.
  unfold Await.postCheckAwait, postCheck, try_catch, bind.
  destruct user as [uid|]; [|reflexivity].
  destruct (getPaymentLinks uid s) as [[links|e] s1]; [|reflexivity].
  destruct (List.find _ links); reflexivity.
Qed.

(** *** Links stay filed under their own id *)

Lemma wf_stored s id l us : wf s -> link_id l = id -> wf (stored s id l us).
Proof.
  intros Hwf Hid k l'. cbn. rewrite lookup_insert.
  case_decide; [intros [= <-]; congruence | apply Hwf].
Qed.

Lemma wf_fresh : wf fresh_server.
Proof.
  intros k l. cbn. rewrite lookup_insert, lookup_empty.
  case_decide; [intros [= <-]; subst; reflexivity | discriminate].
Qed.

Lemma wf_sample : wf sample_server.
Proof.
  intros k l. cbn. rewrite lookup_singleton.
  case_decide; [intros [= <-]; subst; reflexivity | discriminate].
Qed.

Lemma wf_create user link now s :
  wf s -> wf (snd (createPaymentLink user link now s)).
Proof.
  intros Hwf k l. cbn. rewrite lookup_insert.
  case_decide; [intros [= <-]; subst; reflexivity | apply Hwf].
Qed.

(** C10: the URL update of an existing link changes its url field and
    nothing else: status, error code, transaction reference, collected
    amount, last-checked timestamp, archived flag, owner, amount and id
    are those of the link before, and every other link is untouched. *)
Theorem updatePaymentLinkUrl_only_url s id url' l :
  paymentLinks s !! id = Some l ->
  exists l',
    updatePaymentLinkUrl id url' s =
      (Ok l', mkServer (<[id := l']> (paymentLinks s)) (currentLinkId s)
                (outbox s)) /\
    url l' = url' /\
    status l' = status l /\ errorCode l' = errorCode l /\
    transactionNo l' = transactionNo l /\ amountAED l' = amountAED l /\
    lastChecked l' = lastChecked l /\ archived l' = archived l /\
    userId l' = userId l /\ amount l' = amount l /\ link_id l' = link_id l.
Proof.
  intros Hl. exists (with_url l url').
  unfold updatePaymentLinkUrl, bind, get_link. rewrite Hl.
  repeat split.
Qed.

Lemma updatePaymentLinkUrl_only_url_witness :
  exists l',
    updatePaymentLinkUrl 1 (lit "https://pay.example/new") sample_server =
      (Ok l', mkServer (<[1 := l']> (paymentLinks sample_server))
                (currentLinkId sample_server) (outbox sample_server)) /\
    url l' = lit "https://pay.example/new" /\
    status l' = status sample_link /\ errorCode l' = errorCode sample_link /\
    transactionNo l' = transactionNo sample_link /\
    amountAED l' = amountAED sample_link /\
    lastChecked l' = lastChecked sample_link /\
    archived l' = archived sample_link /\
    userId l' = userId sample_link /\ amount l' = amount sample_link /\
    link_id l' = link_id sample_link.
Proof.
  apply (updatePaymentLinkUrl_only_url sample_server 1
           (lit "https://pay.example/new") sample_link).
  reflexivity.
Defined.

(** C1: what a renew does to a link that carries a transaction
    reference and a collected amount: status and error code are reset,
    the url is replaced, and the transaction reference and the amount
    stay as they were, in the response and in the store. *)
Theorem renew_keeps_transaction_and_amount :
  let out :=
    postRenew (Some 1) 1 (Some (lit "https://pay.example/new")) 5
      sample_server in
  let l' :=
    mkPaymentLink 1 1 (lit "https://pay.example/new") 10000 (lit "active")
      None 5 (Some (lit "12345")) (Some (lit "100.00")) false in
  fst out = Ok (JsonLink 200 l') /\ paymentLinks (snd out) !! 1 = Some l'.
Proof.
  cbv zeta. rewrite postRenew_spec by (apply wf_sample || discriminate).
  split; reflexivity.
Qed.

(** *** Applying the same probe result again *)

Lemma nullish_twice {A} (x : jsopt A) (d : option A) :
  nullish x (nullish x d) = nullish x d.
Proof. destruct x; reflexivity. Qed.

Lemma applied_twice l r now1 now2 :
  erase_lastChecked (applied (applied l r now1) r now2) =
  erase_lastChecked (applied l r now1).
Proof.
  unfold erase_lastChecked, applied. cbn. rewrite !nullish_twice.
  reflexivity.
Qed.

Lemma owned_link_stored s user id l l' us :
  owned_link s user id = Some l -> userId l' = userId l ->
  owned_link (stored s id l' us) user id = Some l'.
Proof.
  unfold owned_link. cbn. rewrite lookup_insert_eq.
  destruct (paymentLinks s !! id) as [l0|]; [|discriminate].
  destruct (userId l0 =? user) eqn:E; [|discriminate].
  intros [= ->] ->. rewrite E. reflexivity.
Qed.

(** C8: a check that meets the same probe result twice in succession
    leaves every stored link as the first check left it, up to the
    last-checked timestamp: status, error code, transaction reference and
    collected amount (and all other fields) are the same. *)
Theorem check_twice_same_but_lastChecked probe user id now1 now2 s :
  wf s ->
  let s1 := snd (postCheck probe user id now1 s) in
  let s2 := snd (postCheck probe user id now2 s1) in
  forall k,
    erase_lastChecked <$> (paymentLinks s2 !! k) =
    erase_lastChecked <$> (paymentLinks s1 !! k).
Proof.
  intros Hwf. cbv zeta. destruct user as [user|]; [|reflexivity].
  rewrite (postCheck_spec probe user id now1 s Hwf).
  destruct (owned_link s user id) as [l|] eqn:Ho.
  2:{ cbn [snd]. rewrite (postCheck_spec probe user id now2 s Hwf), Ho.
      reflexivity. }
  destruct (owned_link_Some _ _ _ _ Hwf Ho) as (Hl & Hu & Hid).
  destruct (probe (url l)) as [r|e] eqn:Hp.
  2:{ cbn [snd respond_error ret].
      rewrite (postCheck_spec probe user id now2 s Hwf), Ho, Hp.
      reflexivity. }
  cbv zeta. cbn [snd].
  assert (Hwf1 : wf (stored s id (applied l r now1) [UStatus (applied l r now1)]))
    by (apply wf_stored; assumption).
  rewrite (postCheck_spec probe user id now2 _ Hwf1).
  rewrite (owned_link_stored s user id l (applied l r now1) _ Ho eq_refl).
  change (url (applied l r now1)) with (url l). rewrite Hp.
  cbv zeta. cbn [snd stored paymentLinks]. intros k.
  rewrite !lookup_insert. case_decide; [|reflexivity].
  cbn. f_equal. apply applied_twice.
Qed.

Lemma check_twice_same_but_lastChecked_witness :
  let probe := checkPaymentPage (serves sample_page_success) in
  let s1 := snd (postCheck probe (Some 1) 1 10 fresh_server) in
  let s2 := snd (postCheck probe (Some 1) 1 20 s1) in
  erase_lastChecked <$> (paymentLinks s2 !! 1) =
  erase_lastChecked <$> (paymentLinks s1 !! 1).
Proof.
  refine (check_twice_same_but_lastChecked
            (checkPaymentPage (serves sample_page_success)) (Some 1) 1 10 20
            fresh_server _ 1).
  intros k l. cbn. rewrite lookup_insert, lookup_empty.
  case_decide; [intros [= <-]; subst; reflexivity | discriminate].
Defined.

Example check_sample_success :
  paymentLinks
    (snd (postCheck (checkPaymentPage (serves sample_page_success))
            (Some 1) 1 10 fresh_server)) !! 1 =
  Some (mkPaymentLink 1 1 (lit "https://pay.example/p") 10000 (lit "active")
          None 10 (Some (lit "12345")) (Some (lit "100.00")) false).
Proof. rewrite postCheck_spec by apply wf_fresh. reflexivity. Qed.

Example check_sample_failed :
  paymentLinks
    (snd (postCheck (checkPaymentPage (serves sample_page_failed))
            (Some 1) 1 10 fresh_server)) !! 1 =
  Some (mkPaymentLink 1 1 (lit "https://pay.example/p") 10000 (lit "error")
          (Some generic_failure_code) 10 None None false).
Proof. rewrite postCheck_spec by apply wf_fresh. reflexivity. Qed.

(** *** Owner scoping of the storage operations *)

(** C4, as stated, fails: archiving and deleting give one and the same
    failure for a missing link and for a link of another user. *)
Lemma archive_delete_failures_coincide :
  ~ fails_distinguishably archivePaymentLink /\
  ~ fails_distinguishably deletePaymentLink.
Proof.
  split; intros H;
    apply (H sample_server 2 7 1 sample_link); try reflexivity;
    discriminate.
Qed.

(** C4, amended: listing, archiving and deleting are owner-scoped, and
    archiving and deleting fail with the single error "Payment link not
    found or unauthorized" when the link is missing or belongs to another
    user; the status update and the URL update take no owner, act on any
    stored link by id, and fail with "Payment link not found" only when
    the id is not stored. A failing operation leaves the state as it
    was. The routes that call the two updates, check and renew, scope
    them by looking the link up in the caller's own list first: for a
    link that is missing or belongs to another user they answer an error
    and leave the state as it was, whatever the probe and whatever is
    served during the fetch. *)
Theorem storage_owner_scoping s user id :
  (exists links,
     getPaymentLinks user s = (Ok links, s) /\
     forall l, In l links <->
               (exists k, paymentLinks s !! k = Some l) /\ userId l = user) /\
  archivePaymentLink id user s =
    match owned_link s user id with
    | Some l => (Ok (archived_copy l), stored s id (archived_copy l) [])
    | None => (Throw not_found_or_unauthorized, s)
    end /\
  deletePaymentLink id user s =
    match owned_link s user id with
    | Some l =>
        (Ok tt, mkServer (delete id (paymentLinks s)) (currentLinkId s)
                  (outbox s))
    | None => (Throw not_found_or_unauthorized, s)
    end /\
  (forall status' e t a now,
     updatePaymentLinkStatus id status' e t a now s =
       match paymentLinks s !! id with
       | Some l =>
           let l' := with_status l status' e t a now in
           (Ok l', stored s id l' [])
       | None => (Throw not_found, s)
       end) /\
  (forall url',
     updatePaymentLinkUrl id url' s =
       match paymentLinks s !! id with
       | Some l => (Ok (with_url l url'), stored s id (with_url l url') [])
       | None => (Throw not_found, s)
       end) /\
  (wf s -> owned_link s user id = None ->
   (forall probe now during,
      Await.postCheckAwait probe (Some user) id now during s =
        (Ok (JsonError 400 link_not_found_message (Some NOT_FOUND)), s)) /\
   (forall body now,
      exists message code,
        postRenew (Some user) id body now s =
          (Ok (JsonError 400 message (Some code)), s))).
Proof.
  split; [|split; [|split; [|split; [|split]]]].
  - eexists. split; [reflexivity|]. apply getPaymentLinks_In.
  - unfold archivePaymentLink, owned_link, bind, get_link.
    destruct (paymentLinks s !! id) as [l|]; [|reflexivity].
    destruct (userId l =? user); reflexivity.
  - unfold deletePaymentLink, owned_link, bind, get_link.
    destruct (paymentLinks s !! id) as [l|]; [|reflexivity].
    destruct (userId l =? user); reflexivity.
  - intros. unfold updatePaymentLinkStatus, bind, get_link.
    destruct (paymentLinks s !! id) as [l|]; reflexivity.
  - intros. unfold updatePaymentLinkUrl, bind, get_link.
    destruct (paymentLinks s !! id) as [l|]; reflexivity.
  - intros Hwf Ho. split.
    + intros probe now during.
      rewrite (postCheckAwait_spec _ _ _ _ _ _ Hwf), Ho. reflexivity.
    + intros [[|c w]|] now; try (eexists _, _; reflexivity).
      rewrite (postRenew_spec user id (c :: w) now s Hwf) by discriminate.
      rewrite Ho. eexists _, _. reflexivity.
Qed.

(** *** A page that cannot be read *)

Lemma postCheck_throw network user id now s l e :
  wf s -> owned_link s user id = Some l ->
  checkPaymentPage network (url l) = Throw e ->
  postCheck (checkPaymentPage network) (Some user) id now s =
  respond_error e s.
Proof.
  intros Hwf Ho He. rewrite (postCheck_spec _ user id now s Hwf), Ho, He.
  reflexivity.
Qed.

(** C2, as stated, fails: after the check of a link whose page has
    neither the marker nor a token, the stored link still has the status
    and the empty error code it had before. *)
Lemma check_malformed_keeps_status :
  let probe := checkPaymentPage (serves sample_page_unrelated) in
  let s' := snd (postCheck probe (Some 1) 1 9 fresh_server) in
  parsePage sample_page_unrelated =
    Throw (PaymentLinkError invalid_format_message (Some INVALID_FORMAT)) /\
  status <$> (paymentLinks s' !! 1) = Some (lit "active") /\
  status <$> (paymentLinks s' !! 1) <> Some (lit "error") /\
  errorCode <$> (paymentLinks s' !! 1) = Some None.
Proof.
  cbv zeta. rewrite postCheck_spec by apply wf_fresh.
  split; [vm_compute; reflexivity|].
  split; [reflexivity|]. split; [discriminate | reflexivity].
Qed.

(** C2, amended: when the page of a link has neither the failure marker
    nor a success token, the check stores nothing (the link, its status
    and its last-checked timestamp stay as they were, and nothing is
    broadcast); the probe error does not escape the route, it is answered
    as a 400 response whose code INVALID_FORMAT differs from the error
    code stored for a failed payment and from the codes of the other
    probe errors. *)
Theorem check_malformed_not_stored network s user id l statusText page now :
  wf s ->
  paymentLinks s !! id = Some l -> userId l = user ->
  network (url l) = Response true statusText page ->
  ~ has_marker page ->
  ~ has_token transaction_at page -> ~ has_token amount_at page ->
  postCheck (checkPaymentPage network) (Some user) id now s =
    (Ok (JsonError 400 invalid_format_message (Some INVALID_FORMAT)), s) /\
  INVALID_FORMAT <> generic_failure_code /\
  INVALID_FORMAT <> FETCH_ERROR /\ INVALID_FORMAT <> CHECK_ERROR.
Proof.
  intros Hwf Hl Hu Hnet Hm Ht Ha.
  split; [|repeat split; discriminate].
  rewrite (postCheck_throw network user id now s l
             (PaymentLinkError invalid_format_message (Some INVALID_FORMAT)));
    [reflexivity | exact Hwf | |].
  - unfold owned_link. rewrite Hl. apply Z.eqb_eq in Hu. rewrite Hu.
    reflexivity.
  - unfold checkPaymentPage. rewrite Hnet. cbn [negb].
    rewrite (parse_malformed page Hm Ht Ha). reflexivity.
Qed.

Lemma check_malformed_not_stored_witness :
  postCheck (checkPaymentPage (serves sample_page_unrelated)) (Some 1) 1 9
    fresh_server =
    (Ok (JsonError 400 invalid_format_message (Some INVALID_FORMAT)),
     fresh_server) /\
  INVALID_FORMAT <> generic_failure_code /\
  INVALID_FORMAT <> FETCH_ERROR /\ INVALID_FORMAT <> CHECK_ERROR.
Proof.
  apply (check_malformed_not_stored (serves sample_page_unrelated)
           fresh_server 1 1
           (mkPaymentLink 1 1 (lit "https://pay.example/p") 10000
              (lit "active") None 0 None None false)
           (lit "OK") sample_page_unrelated 9).
  - intros k l. cbn. rewrite lookup_insert, lookup_empty.
    case_decide; [intros [= <-]; subst; reflexivity | discriminate].
  - reflexivity.
  - reflexivity.
  - reflexivity.
  - intros H. apply has_marker_includes in H.
    vm_compute in H. discriminate.
  - intros H. apply transaction_matched in H.
    vm_compute in H. discriminate.
  - intros H. apply amount_matched in H.
    vm_compute in H. discriminate.
Defined.

End ServerFacts.

(** ** Facts about the client channel *)

Module ChannelFacts.

Import Channel.

(** What one close event schedules. *)
Lemma onclose_below_ceiling c :
  0 <= reconnectAttempts c < MAX_RECONNECT_ATTEMPTS ->
  ws (onclose c) = None /\
  reconnectAttempts (onclose c) = reconnectAttempts c + 1 /\
  timers (onclose c) =
    timers c ++ [RECONNECT_DELAY * 2 ^ (reconnectAttempts c + 1 - 1)].
Proof.
  intros [_ H]. unfold onclose. apply Z.ltb_lt in H. rewrite H.
  repeat split.
Qed.

Lemma onclose_at_ceiling c :
  MAX_RECONNECT_ATTEMPTS <= reconnectAttempts c ->
  ws (onclose c) = None /\
  reconnectAttempts (onclose c) = reconnectAttempts c /\
  timers (onclose c) = timers c.
Proof.
  intros H. unfold onclose. apply Z.ltb_ge in H. rewrite H. repeat split.
Qed.

(** The close event that follows the cleanup is handled like a loss. *)
Lemma cleanup_then_close c i :
  ws c = Some i -> sockets c !! i = Some OPEN ->
  0 <= reconnectAttempts c < MAX_RECONNECT_ATTEMPTS ->
  exists c',
    run [Unmount; SocketClose i] c = Some c' /\
    timers c' =
      timers c ++ [RECONNECT_DELAY * 2 ^ (reconnectAttempts c + 1 - 1)].
Proof.
  intros Hws Hi Hn. cbn [run step]. unfold cleanup, ws_readyState.
  rewrite Hws, Hi. cbn [set_readyState sockets].
  rewrite list_lookup_insert_eq by (eapply lookup_lt_Some; exact Hi).
  eexists. split; [reflexivity|].
  apply (onclose_below_ceiling
           (set_readyState i CLOSED
              (mkClient None (reconnectAttempts c)
                 (<[i := CLOSING]> (sockets c)) (timers c) (console c)
                 (invalidations c)))).
  exact Hn.
Qed.

(** C3: the trace of a deliberate shutdown. After the cleanup the socket
    is closing and [ws] is cleared; the close event of that socket then
    runs the handler that schedules a reconnection after 1000 ms, and
    when that timer fires a new connection is opened. *)
Theorem shutdown_schedules_reconnection :
  run [Mount; SocketOpen 0; Unmount] init =
    Some (mkClient None 0 [CLOSING] [] [] 0) /\
  run shutdown_trace init =
    Some (mkClient None 1 [CLOSED] [1000] [(1, 1000)] 0) /\
  run (shutdown_trace ++ [TimerFires 0]) init =
    Some (mkClient (Some 1%nat) 1 [CLOSED; CONNECTING] [] [(1, 1000)] 0).
Proof. repeat split. Qed.

(** C5, as stated, fails: after five connection attempts that failed at
    once a sixth attempt is pending, due in 16000 ms, and is made when
    its timer fires. *)
Lemma five_failures_leave_sixth_attempt :
  run five_failures_trace init =
    Some (mkClient None 5 [CLOSED; CLOSED; CLOSED; CLOSED; CLOSED] [16000]
            [(1, 1000); (2, 2000); (3, 4000); (4, 8000); (5, 16000)] 0) /\
  run (five_failures_trace ++ [TimerFires 0]) init =
    Some (mkClient (Some 5%nat) 5
            [CLOSED; CLOSED; CLOSED; CLOSED; CLOSED; CONNECTING] []
            [(1, 1000); (2, 2000); (3, 4000); (4, 8000); (5, 16000)] 0).
Proof. split; reflexivity. Qed.

Lemma failed_attempts_add a b c :
  failed_attempts (a + b) c = failed_attempts b (failed_attempts a c).
Proof.
  revert c. induction a as [|a IH]; intros c; [reflexivity|].
  cbn [Nat.add failed_attempts]. apply IH.
Qed.

Lemma failed_attempts_idle k c : ws c = None -> failed_attempts k c = c.
Proof.
  intros H. induction k as [|k IH]; [reflexivity|].
  cbn [failed_attempts]. unfold failed_attempt. rewrite H. exact IH.
Qed.

(** C5, amended: from the disconnected state with counter 0, the first
    connection attempt and the reconnection attempts that follow all fail
    at once. The close event of the n-th failed attempt (n = 1..5) hands
    [setTimeout] exactly one delay, 1000 * 2^(n-1) ms, and writes it to
    the console; when that timer fires the next attempt is made. Once six
    attempts have failed (the first one and five reconnections) the
    channel is disconnected with the counter at 5 and nothing scheduled,
    and it stays so. *)
Theorem reconnection_exhausted (k : nat) :
  (6 <= k)%nat ->
  let c := failed_attempts k (connectWebSocket init) in
  ws c = None /\ timers c = [] /\ reconnectAttempts c = 5 /\
  length (sockets c) = 6%nat /\
  length (console c) = 5%nat /\
  (forall n, 1 <= n <= 5 ->
     console c !! Z.to_nat (n - 1) = Some (n, RECONNECT_DELAY * 2 ^ (n - 1))) /\
  (forall n, 1 <= n <= 5 ->
     exists c1,
       step (SocketClose (Z.to_nat (n - 1)))
         (failed_attempts (Z.to_nat (n - 1)) (connectWebSocket init)) =
         Some c1 /\
       ws c1 = None /\
       timers c1 = [RECONNECT_DELAY * 2 ^ (n - 1)] /\
       step (TimerFires 0) c1 =
         Some (failed_attempts (Z.to_nat n) (connectWebSocket init))).
Proof.
  intros Hk. cbv zeta.
  assert (Hend : failed_attempts k (connectWebSocket init) =
                 failed_attempts 6 (connectWebSocket init)).
  { replace k with (6 + (k - 6))%nat by lia.
    rewrite failed_attempts_add. apply failed_attempts_idle. reflexivity. }
  rewrite Hend. clear Hend Hk k.
  do 5 (split; [reflexivity|]). split.
  - intros n Hn.
    assert (n = 1 \/ n = 2 \/ n = 3 \/ n = 4 \/ n = 5) as Hcases by lia.
    destruct Hcases as [-> | [-> | [-> | [-> | ->]]]]; reflexivity.
  - intros n Hn.
    assert (n = 1 \/ n = 2 \/ n = 3 \/ n = 4 \/ n = 5) as Hcases by lia.
    destruct Hcases as [-> | [-> | [-> | [-> | ->]]]];
      (eexists; split; [vm_compute; reflexivity|]);
      (split; [reflexivity|]); split; vm_compute; reflexivity.
Qed.

Lemma reconnection_exhausted_witness :
  let c := failed_attempts 8 (connectWebSocket init) in
  ws c = None /\ timers c = [] /\ reconnectAttempts c = 5 /\
  length (sockets c) = 6%nat /\
  length (console c) = 5%nat /\
  (forall n, 1 <= n <= 5 ->
     console c !! Z.to_nat (n - 1) = Some (n, RECONNECT_DELAY * 2 ^ (n - 1))) /\
  (forall n, 1 <= n <= 5 ->
     exists c1,
       step (SocketClose (Z.to_nat (n - 1)))
         (failed_attempts (Z.to_nat (n - 1)) (connectWebSocket init)) =
         Some c1 /\
       ws c1 = None /\
       timers c1 = [RECONNECT_DELAY * 2 ^ (n - 1)] /\
       step (TimerFires 0) c1 =
         Some (failed_attempts (Z.to_nat n) (connectWebSocket init))).
Proof. apply (reconnection_exhausted 8). lia. Defined.

End ChannelFacts.

(** ** Facts about the reconciliation interval *)

Module GridFacts.

Import Grid.

Lemma tick_app links1 links2 :
  tick (links1 ++ links2) = tick links1 ++ tick links2.
Proof.
  induction links1 as [|link links1 IH]; [reflexivity|].
  cbn [app tick]. destruct (check_issued link); cbn [app]; rewrite IH;
    reflexivity.
Qed.

(** Every check of a tick is issued for a link that is not archived. *)
Lemma tick_In links id :
  In id (tick links) <->
  exists l, In (Some l) links /\ archived l = false /\ link_id l = id.
Proof.
  induction links as [|link links IH]; cbn [tick].
  - split; [intros [] | intros (l & [] & _)].
  - destruct link as [l|]; cbn [check_issued].
    + destruct (archived l) eqn:Ea; cbn [negb In]; rewrite ?IH; split.
      * intros (l' & H & Hl'). exists l'. split; [right; exact H | exact Hl'].
      * intros (l' & [[= <-] | H] & Ha & Hid); [congruence | eauto].
      * intros [<- | (l' & H & Hl')]; [exists l; auto|].
        exists l'. split; [right; exact H | exact Hl'].
      * intros (l' & [[= <-] | H] & Ha & Hid); [left; exact Hid | right; eauto].
    + rewrite IH. split; intros (l' & H & Hl').
      * exists l'. split; [right; exact H | exact Hl'].
      * destruct H as [H | H]; [discriminate | eauto].
Qed.

(** C9: on a tick, an archived link of the list is not probed: the
    checks issued are those issued for the links before it followed by
    those issued for the links after it, none for the link itself; and
    every check of the tick is issued for a link that is not archived. *)
Theorem archived_never_checked pre l post :
  archived l = true ->
  check_issued (Some l) = None /\
  tick (pre ++ Some l :: post) = tick pre ++ tick post /\
  forall id, In id (tick (pre ++ Some l :: post)) ->
    exists l', In (Some l') (pre ++ Some l :: post) /\
               archived l' = false /\ link_id l' = id.
Proof.
  intros Ha. assert (Hnone : check_issued (Some l) = None).
  { cbn. rewrite Ha. reflexivity. }
  split; [exact Hnone|]. split.
  - rewrite tick_app. cbn [tick]. rewrite Hnone. reflexivity.
  - intros id. apply tick_In.
Qed.

Lemma archived_never_checked_witness :
  let links :=
    [Some sample_link] ++ Some archived_link :: [None; Some sample_link] in
  check_issued (Some archived_link) = None /\
  tick links = tick [Some sample_link] ++ tick [None; Some sample_link] /\
  forall id, In id (tick links) ->
    exists l', In (Some l') links /\ archived l' = false /\ link_id l' = id.
Proof.
  apply (archived_never_checked [Some sample_link] archived_link
           [None; Some sample_link]).
  reflexivity.
Defined.

End GridFacts.

(** ** More facts about the parser and the probe *)

Module ProbeFacts.

Import Parser Tokens ParserFacts.

Local Open Scope N_scope.

Lemma at_word_transaction s d : transaction_at s d -> word is_digit d.
Proof. intros (sp & rest & _ & _ & Hd & _). exact Hd. Qed.

Lemma at_word_amount s d : amount_at s d -> word is_amount_char d.
Proof. intros (sp & sp' & rest & _ & _ & Hd & _). exact Hd. Qed.

(** A match of either pattern always fills group 1. *)
Lemma exec_group r at_ page :
  (forall s st, matcher r Some (s, None) = Some st ->
                exists d, snd st = Some d /\ at_ s d) ->
  matched (exec r page) = true -> exists d, group1 (exec r page) = val d.
Proof.
  intros Hm. induction page as [|c page IH]; cbn [exec].
  - destruct (matcher r Some ([], None)) as [st|] eqn:E; [|discriminate].
    destruct (Hm _ _ E) as (d & -> & _). intros _. exists d. reflexivity.
  - destruct (matcher r Some (c :: page, None)) as [st|] eqn:E; [|exact IH].
    destruct (Hm _ _ E) as (d & -> & _). intros _. exists d. reflexivity.
Qed.

Lemma has_marker_dec page : has_marker page \/ ~ has_marker page.
Proof.
  destruct (includes page failure_marker) eqn:E.
  - left. apply has_marker_includes. exact E.
  - right. intros H. apply has_marker_includes in H. congruence.
Qed.

Lemma has_transaction_dec page :
  has_token transaction_at page \/ ~ has_token transaction_at page.
Proof.
  destruct (matched (exec transactionRe page)) eqn:E.
  - left. apply transaction_matched. exact E.
  - right. intros H. apply transaction_matched in H. congruence.
Qed.

Lemma has_amount_dec page :
  has_token amount_at page \/ ~ has_token amount_at page.
Proof.
  destruct (matched (exec amountRe page)) eqn:E.
  - left. apply amount_matched. exact E.
  - right. intros H. apply amount_matched in H. congruence.
Qed.

Lemma parse_success_shape page :
  ~ has_marker page ->
  has_token transaction_at page \/ has_token amount_at page ->
  exists t a, parsePage page = Ok (mkCheckResult true t a undefined).
Proof.
  intros Hm Htok. unfold parsePage. rewrite (no_marker_includes page Hm).
  cbv zeta. destruct Htok as [H | H].
  - apply transaction_matched in H. rewrite H. eauto.
  - apply amount_matched in H. rewrite H, andb_false_r. eauto.
Qed.

(** X1: the three outcomes of the parser, each with its exact
    condition on the page text. *)
Theorem parse_classification page :
  (parsePage page =
     Ok (mkCheckResult false undefined undefined (val generic_failure_code))
   <-> has_marker page) /\
  ((exists t a, parsePage page = Ok (mkCheckResult true t a undefined))
   <-> ~ has_marker page /\
       (has_token transaction_at page \/ has_token amount_at page)) /\
  (parsePage page =
     Throw (PaymentLinkError invalid_format_message (Some INVALID_FORMAT))
   <-> ~ has_marker page /\
       ~ has_token transaction_at page /\ ~ has_token amount_at page).
Proof.
  destruct (has_marker_dec page) as [Hm | Hm].
  { pose proof Hm as Hi. apply has_marker_includes in Hi.
    unfold parsePage. rewrite Hi.
    split; [tauto|]. split; (split; [|tauto]).
    - intros (t & a & [=]).
    - discriminate. }
  destruct (has_transaction_dec page) as [Ht | Ht];
    [|destruct (has_amount_dec page) as [Ha | Ha]].
  - destruct (parse_success_shape page Hm (or_introl Ht)) as (t & a & E).
    rewrite E. split; [split; [discriminate | tauto]|].
    split; [split; eauto | split; [discriminate | tauto]].
  - destruct (parse_success_shape page Hm (or_intror Ha)) as (t & a & E).
    rewrite E. split; [split; [discriminate | tauto]|].
    split; [split; eauto | split; [discriminate | tauto]].
  - rewrite (parse_malformed page Hm Ht Ha).
    split; [split; [discriminate | tauto]|].
    split; [|tauto]. split; [intros (t & a & [=]) | tauto].
Qed.

Lemma transaction_group_word page d :
  group1 (exec transactionRe page) = val d -> word is_digit d.
Proof.
  intros E. pose proof (transaction_carries page) as H. rewrite E in H.
  destruct H as (pre & s & _ & Hat & _). exact (at_word_transaction s d Hat).
Qed.

Lemma amount_group_word page d :
  group1 (exec amountRe page) = val d -> word is_amount_char d.
Proof.
  intros E. pose proof (amount_carries page) as H. rewrite E in H.
  destruct H as (pre & s & _ & Hat & _). exact (at_word_amount s d Hat).
Qed.

Lemma group1_not_null m : group1 m <> null.
Proof. destruct m as [[d|]|]; discriminate. Qed.

(** The probe returns what the parser returns, or throws. *)
Lemma checkPaymentPage_Ok network u r :
  checkPaymentPage network u = Ok r ->
  exists statusText body,
    network u = Response true statusText body /\ parsePage body = Ok r.
Proof.
  unfold checkPaymentPage.
  destruct (network u) as [[m|]|ok statusText body]; try discriminate.
  destruct ok; cbn [negb]; [|discriminate].
  destruct (parsePage body) as [r'|e] eqn:E.
  - intros [= ->]. eauto.
  - destruct e; discriminate.
Qed.

(** Active flag and error code of a result go together. *)
Lemma probe_status_code network u r :
  checkPaymentPage network u = Ok r ->
  (isActive r = false /\ res_errorCode r = val generic_failure_code) \/
  (isActive r = true /\ res_errorCode r = undefined).
Proof.
  intros H. apply checkPaymentPage_Ok in H as (statusText & body & _ & H).
  unfold parsePage in H.
  destruct (includes body failure_marker); [injection H as <-; left; auto|].
  cbv zeta in H. destruct (negb _ && negb _); [discriminate|].
  injection H as <-. right. auto.
Qed.

(** The fields of the successful result are the first groups of the two
    matches. *)
Lemma parse_success_fields page :
  ~ has_marker page ->
  has_token transaction_at page \/ has_token amount_at page ->
  parsePage page =
  Ok (mkCheckResult true (group1 (exec transactionRe page))
        (group1 (exec amountRe page)) undefined).
Proof.
  intros Hm Htok. unfold parsePage. rewrite (no_marker_includes page Hm).
  cbv zeta. destruct Htok as [H | H].
  - apply transaction_matched in H. rewrite H. reflexivity.
  - apply amount_matched in H. rewrite H, andb_false_r. reflexivity.
Qed.

(** X2: the shape of every result the probe returns. It is either the
    failed result with the generic error code and no token, or a
    successful result without error code that carries at least one token;
    a transaction number it carries is a non-empty string of digits, an
    amount a non-empty string of digits, commas and dots. *)
Theorem probe_result_shape network u r :
  checkPaymentPage network u = Ok r ->
  r = mkCheckResult false undefined undefined (val generic_failure_code) \/
  (isActive r = true /\ res_errorCode r = undefined /\
   ((exists d, res_transactionNo r = val d) \/
    (exists d, res_amountAED r = val d)) /\
   (forall d, res_transactionNo r = val d -> word is_digit d) /\
   (forall d, res_amountAED r = val d -> word is_amount_char d) /\
   res_transactionNo r <> null /\ res_amountAED r <> null).
Proof.
  intros H. apply checkPaymentPage_Ok in H as (statusText & body & _ & H).
  unfold parsePage in H.
  destruct (includes body failure_marker); [left; congruence|].
  cbv zeta in H.
  destruct (matched (exec transactionRe body)) eqn:Et;
    destruct (matched (exec amountRe body)) eqn:Ea;
    cbn [negb andb] in H; try discriminate;
    injection H as <-; right; cbn [isActive res_errorCode res_transactionNo
                                    res_amountAED];
    (split; [reflexivity|]); (split; [reflexivity|]);
    (split; [|split; [apply transaction_group_word|
              split; [apply amount_group_word|
              split; apply group1_not_null]]]).
  - left. apply (exec_group _ transaction_at); [apply transaction_match_Some|].
    exact Et.
  - left. apply (exec_group _ transaction_at); [apply transaction_match_Some|].
    exact Et.
  - right. apply (exec_group _ amount_at); [apply amount_match_Some|].
    exact Ea.
Qed.

Lemma probe_result_shape_witness :
  let r :=
    mkCheckResult true (val (lit "12345")) (val (lit "100.00")) undefined in
  r = mkCheckResult false undefined undefined (val generic_failure_code) \/
  (isActive r = true /\ res_errorCode r = undefined /\
   ((exists d, res_transactionNo r = val d) \/
    (exists d, res_amountAED r = val d)) /\
   (forall d, res_transactionNo r = val d -> word is_digit d) /\
   (forall d, res_amountAED r = val d -> word is_amount_char d) /\
   res_transactionNo r <> null /\ res_amountAED r <> null).
Proof.
  apply (probe_result_shape (serves sample_page_success)
           (lit "https://pay.example/p")).
  vm_compute. reflexivity.
Defined.

End ProbeFacts.

(** ** More facts about the routes *)

Module ApiFacts.

Import Storage Parser Routes Tokens ParserFacts ServerFacts ProbeFacts Api.

Lemma owned_link_lookup s user id l :
  owned_link s user id = Some l ->
  paymentLinks s !! id = Some l /\ userId l = user.
Proof.
  unfold owned_link. destruct (paymentLinks s !! id) as [l'|]; [|discriminate].
  destruct (userId l' =? user) eqn:E; [|discriminate].
  intros [= ->]. apply Z.eqb_eq in E. auto.
Qed.

Lemma deleteLink_spec user id s :
  deleteLink (Some user) id s =
  match owned_link s user id with
  | Some _ =>
      (Ok (SendStatus 204),
       mkServer (delete id (paymentLinks s)) (currentLinkId s)
         (UDelete id :: outbox s))
  | None =>
      (Ok (JsonError 500 (lit "Payment link not found or unauthorized") None),
       s)
  end.
Proof.
  unfold deleteLink, deletePaymentLink, try_catch, bind, get_link, owned_link.
  destruct (paymentLinks s !! id) as [l|]; [|reflexivity].
  destruct (userId l =? user); reflexivity.
Qed.

Lemma postArchive_spec user id s :
  postArchive (Some user) id s =
  match owned_link s user id with
  | Some l =>
      (Ok (JsonLink 200 (archived_copy l)),
       stored s id (archived_copy l) [UArchive (archived_copy l)])
  | None =>
      (Ok (JsonError 500 (lit "Payment link not found or unauthorized") None),
       s)
  end.
Proof.
  unfold postArchive, archivePaymentLink, try_catch, bind, get_link,
    owned_link.
  destruct (paymentLinks s !! id) as [l|]; [|reflexivity].
  destruct (userId l =? user); reflexivity.
Qed.

Lemma status_ok_applied network l r now :
  checkPaymentPage network (url l) = Ok r -> status_ok (applied l r now).
Proof.
  intros H. unfold status_ok, applied. cbn.
  destruct (probe_status_code _ _ _ H) as [[Ha He] | [Ha He]];
    rewrite Ha, He; cbn; [right | left]; eauto.
Qed.

(** Every request ends in one of the ways of [transition]. *)
Lemma handle_transition network user req s :
  wf s ->
  exists resp s',
    handle network user req s = (Ok resp, s') /\ transition user s resp s'.
Proof.
  intros Hwf. destruct user as [uid|].
  2:{ exists (SendStatus 401), s. split; [destruct req; reflexivity|].
      apply t_refused. reflexivity. }
  destruct req as [|parsed now|id|id now|id|id body now]; cbn [handle].
  - eexists _, s. split; [reflexivity|]. eapply t_listed. reflexivity.
  - destruct parsed as [data|].
    + eexists _, _. split; [reflexivity|].
      apply (t_created (Some uid) s uid data now). reflexivity.
    + eexists _, s. split; [reflexivity|]. apply t_refused. reflexivity.
  - rewrite deleteLink_spec. destruct (owned_link s uid id) as [l|] eqn:Ho.
    + eexists _, _. split; [reflexivity|].
      apply (t_deleted (Some uid) s uid id l); auto.
    + eexists _, s. split; [reflexivity|]. apply t_refused. reflexivity.
  - rewrite (postCheck_spec _ uid id now s Hwf).
    destruct (owned_link s uid id) as [l|] eqn:Ho.
    2:{ eexists _, s. split; [reflexivity|]. apply t_refused. reflexivity. }
    destruct (checkPaymentPage network (url l)) as [r|e] eqn:Hp.
    + eexists _, _. split; [reflexivity|].
      apply (t_updated (Some uid) s uid id l); auto.
      intros _. exact (status_ok_applied network l r now Hp).
    + eexists _, s. split; [reflexivity|]. apply t_refused. reflexivity.
  - rewrite postArchive_spec. destruct (owned_link s uid id) as [l|] eqn:Ho.
    + eexists _, _. split; [reflexivity|].
      apply (t_updated (Some uid) s uid id l); auto.
    + eexists _, s. split; [reflexivity|]. apply t_refused. reflexivity.
  - destruct body as [[|c url']|].
    + eexists _, s. split; [reflexivity|]. apply t_refused. reflexivity.
    + rewrite (postRenew_spec uid id (c :: url') now s Hwf) by discriminate.
      destruct (owned_link s uid id) as [l|] eqn:Ho.
      * eexists _, _. split; [reflexivity|].
        apply (t_updated (Some uid) s uid id l); auto.
        intros _. left. split; reflexivity.
      * eexists _, s. split; [reflexivity|]. apply t_refused. reflexivity.
    + eexists _, s. split; [reflexivity|]. apply t_refused. reflexivity.
Qed.

Lemma transition_invariant user s resp s' :
  invariant s -> transition user s resp s' -> invariant s'.
Proof.
  intros (Hwf & Hb & Hs) Ht.
  destruct Ht as [resp _|uid links _|uid data now _|uid id l _ Ho
                 |uid id l l' u _ Ho Hid Hu Ham Har Hst];
    try (split; [|split]; assumption).
  - split; [|split]; intros k l'; cbn; rewrite lookup_insert; case_decide.
    + intros [= <-]. subst k. reflexivity.
    + apply Hwf.
    + intros _. lia.
    + intros H'. pose proof (Hb _ _ H'). lia.
    + intros [= <-]. left. split; reflexivity.
    + apply Hs.
  - split; [|split]; intros k l'; cbn; rewrite lookup_delete; case_decide;
      try discriminate; [apply Hwf | apply Hb | apply Hs].
  - destruct (owned_link_lookup _ _ _ _ Ho) as [Hl _].
    split; [|split]; intros k l0; cbn; rewrite lookup_insert; case_decide.
    + intros [= <-]. subst k. rewrite Hid. exact (Hwf _ _ Hl).
    + apply Hwf.
    + intros _. subst k. exact (Hb _ _ Hl).
    + apply Hb.
    + intros [= <-]. apply Hst. exact (Hs _ _ Hl).
    + apply Hs.
Qed.

Lemma handle_invariant network user req s :
  invariant s -> invariant (snd (handle network user req s)).
Proof.
  intros Hi. pose proof Hi as (Hwf & _).
  destruct (handle_transition network user req s Hwf) as (resp & s' & E & Ht).
  rewrite E. exact (transition_invariant user s resp s' Hi Ht).
Qed.

(** X3: in every state the server reaches from the empty storage, by
    any history of requests of any users over any networks, each link is
    filed under its own id, all ids are below the id counter, and a link
    has an error code exactly when its status is "error" (status "active"
    with no code, or status "error" with one). *)
Theorem reachable_invariant reqs : invariant (serve reqs empty_server).
Proof.
  assert (H0 : invariant empty_server).
  { split; [|split]; intros k l; cbn; rewrite lookup_empty; discriminate. }
  revert H0. generalize empty_server.
  induction reqs as [|[[network user] req] reqs IH]; intros s Hs; [exact Hs|].
  cbn [serve]. apply IH, handle_invariant, Hs.
Qed.

(** X4: no request lets an error escape, and a request that is refused
    has no effect. Whatever the request, the route returns a response;
    when the response is an error (or 401) the state is exactly as
    before, nothing stored and nothing broadcast; when it is a success
    other than the listing, exactly one message is broadcast. *)
Theorem request_effects network user req s :
  wf s ->
  exists resp s',
    handle network user req s = (Ok resp, s') /\
    (success resp = false -> s' = s) /\
    (success resp = true ->
     (req = GET_links /\ s' = s) \/
     (mutates req = true /\ exists u, outbox s' = u :: outbox s)).
Proof.
  intros Hwf.
  destruct (handle_transition network user req s Hwf) as (resp & s' & E & Ht).
  exists resp, s'. split; [exact E|].
  assert (Hget : req = GET_links -> s' = s).
  { intros ->. destruct user; cbn in E; injection E as _ <-; reflexivity. }
  destruct Ht as [resp Hf|uid links _|uid data now _|uid id l _ Ho
                 |uid id l l' u _ Ho Hid Hu Ham Har Hst].
  - split; [reflexivity | congruence].
  - split; [reflexivity|]. intros _.
    destruct req; try (right; split; [reflexivity|]);
      try (destruct user; cbn in E; discriminate).
    + left. auto.
    + destruct user; cbn in E; [|discriminate]. destruct parsed; discriminate.
    + destruct user as [x|]; [|discriminate]. cbn [handle] in E.
      rewrite deleteLink_spec in E. destruct (owned_link s x id); discriminate.
    + destruct user as [x|]; [|discriminate]. cbn [handle] in E.
      rewrite (postCheck_spec _ x id now s Hwf) in E.
      destruct (owned_link s x id) as [l|]; [|discriminate].
      destruct (checkPaymentPage network (url l)); discriminate.
    + destruct user as [x|]; [|discriminate]. cbn [handle] in E.
      rewrite postArchive_spec in E. destruct (owned_link s x id); discriminate.
    + destruct user as [x|]; [|discriminate]. cbn [handle] in E.
      destruct body_url as [[|c w]|]; try discriminate.
      rewrite (postRenew_spec x id (c :: w) now s Hwf) in E by discriminate.
      destruct (owned_link s x id); discriminate.
  - split; [discriminate|]. intros _. right. split; [|cbn; eauto].
    destruct req; [specialize (Hget eq_refl); exfalso|..]; try reflexivity.
    apply (f_equal outbox) in Hget. cbn in Hget.
    apply (f_equal length) in Hget. cbn in Hget. lia.
  - split; [discriminate|]. intros _. right. split; [|cbn; eauto].
    destruct req; [specialize (Hget eq_refl); exfalso|..]; try reflexivity.
    apply (f_equal outbox) in Hget. cbn in Hget.
    apply (f_equal length) in Hget. cbn in Hget. lia.
  - split; [discriminate|]. intros _. right. split; [|cbn; eauto].
    destruct req; [specialize (Hget eq_refl); exfalso|..]; try reflexivity.
    apply (f_equal outbox) in Hget. cbn in Hget.
    apply (f_equal length) in Hget. cbn in Hget. lia.
Qed.

Lemma request_effects_witness :
  exists resp s',
    handle (serves sample_page_unrelated) (Some 1) (POST_check 1 9)
      fresh_server = (Ok resp, s') /\
    (success resp = false -> s' = fresh_server) /\
    (success resp = true ->
     (POST_check 1 9 = GET_links /\ s' = fresh_server) \/
     (mutates (POST_check 1 9) = true /\
      exists u, outbox s' = u :: outbox fresh_server)).
Proof.
  apply (request_effects (serves sample_page_unrelated) (Some 1)
           (POST_check 1 9) fresh_server).
  intros k l. cbn. rewrite lookup_insert, lookup_empty.
  case_decide; [intros [= <-]; subst; reflexivity | discriminate].
Defined.

Lemma wf_two_users : wf two_users_server /\ below_counter two_users_server.
Proof.
  split; intros k l; cbn; rewrite !lookup_insert, lookup_empty;
    repeat case_decide; try discriminate; intros [= <-]; subst;
    (reflexivity || lia).
Qed.

(** X5: a request never touches the links of anyone but its user. A
    stored link whose owner is not the authenticated user of the request
    (or any link, when the request is not authenticated) is exactly the
    same after the request. *)
Theorem other_users_untouched network user req s k l :
  wf s -> below_counter s ->
  paymentLinks s !! k = Some l -> user <> Some (userId l) ->
  paymentLinks (snd (handle network user req s)) !! k = Some l.
Proof.
  intros Hwf Hb Hl Hu.
  destruct (handle_transition network user req s Hwf) as (resp & s' & E & Ht).
  rewrite E. cbn [snd].
  destruct Ht as [resp _|uid links _|uid data now _|uid id l0 -> Ho
                 |uid id l0 l' u -> Ho Hid Hu' Ham Har Hst];
    try exact Hl; cbn.
  - rewrite lookup_insert_ne; [exact Hl|]. pose proof (Hb _ _ Hl). lia.
  - destruct (owned_link_lookup _ _ _ _ Ho) as [Hl0 Hu0].
    rewrite lookup_delete_ne; [exact Hl|]. intros ->. congruence.
  - destruct (owned_link_lookup _ _ _ _ Ho) as [Hl0 Hu0].
    rewrite lookup_insert_ne; [exact Hl|]. intros ->. congruence.
Qed.

Lemma other_users_untouched_witness :
  paymentLinks
    (snd (handle (serves sample_page_failed) (Some 2) (DELETE_link 1)
            two_users_server)) !! 1 =
  Some (created (mkServer ∅ 1 []) 1
          (mkInsert (lit "https://pay.example/p") 10000) 0).
Proof.
  apply (other_users_untouched (serves sample_page_failed) (Some 2)
           (DELETE_link 1) two_users_server 1).
  - apply wf_two_users.
  - apply wf_two_users.
  - reflexivity.
  - discriminate.
Defined.

(** X6: what no request changes. As long as a link stays stored, its
    id, its owner and its amount are those it was created with, and once
    archived it stays archived. *)
Theorem link_fields_fixed network user req s k l l' :
  wf s -> below_counter s ->
  paymentLinks s !! k = Some l ->
  paymentLinks (snd (handle network user req s)) !! k = Some l' ->
  link_id l' = link_id l /\ userId l' = userId l /\ amount l' = amount l /\
  (archived l = true -> archived l' = true).
Proof.
  intros Hwf Hb Hl.
  destruct (handle_transition network user req s Hwf) as (resp & s' & E & Ht).
  rewrite E. cbn [snd].
  destruct Ht as [resp _|uid links _|uid data now _|uid id l0 -> Ho
                 |uid id l0 l1 u -> Ho Hid Hu' Ham Har Hst]; cbn.
  - rewrite Hl. intros [= <-]. auto.
  - rewrite Hl. intros [= <-]. auto.
  - rewrite lookup_insert_ne by (pose proof (Hb _ _ Hl); lia).
    rewrite Hl. intros [= <-]. auto.
  - rewrite lookup_delete. case_decide; [discriminate|].
    rewrite Hl. intros [= <-]. auto.
  - destruct (owned_link_lookup _ _ _ _ Ho) as [Hl0 Hu0].
    rewrite lookup_insert. case_decide.
    + subst k. intros [= <-]. assert (l0 = l) as -> by congruence. auto.
    + rewrite Hl. intros [= <-]. auto.
Qed.

Lemma link_fields_fixed_witness :
  let l := created (mkServer ∅ 1 []) 1
             (mkInsert (lit "https://pay.example/p") 10000) 0 in
  let l' := renewed l (lit "https://pay.example/new") 7 in
  link_id l' = link_id l /\ userId l' = userId l /\ amount l' = amount l /\
  (archived l = true -> archived l' = true).
Proof.
  apply (link_fields_fixed (serves sample_page_failed) (Some 1)
           (POST_renew 1 (Some (lit "https://pay.example/new")) 7)
           two_users_server 1).
  - apply wf_two_users.
  - apply wf_two_users.
  - reflexivity.
  - cbn [handle].
    rewrite postRenew_spec by (apply wf_two_users || discriminate).
    reflexivity.
Defined.

(** X7: creating a link. For an authenticated user and accepted data
    the route answers 201 with a link stored under an id that no link
    had, owned by the user, with the submitted url and amount, status
    "active", no error code, transaction number or collected amount, not
    archived; every link stored before is unchanged and the new link is
    in the user's list. *)
Theorem create_link uid data now s :
  below_counter s ->
  exists link s',
    postLink (Some uid) (Some data) now s = (Ok (JsonLink 201 link), s') /\
    paymentLinks s !! link_id link = None /\
    paymentLinks s' !! link_id link = Some link /\
    link = mkPaymentLink (currentLinkId s) uid (ins_url data)
             (ins_amount data) (lit "active") None now None None false /\
    (forall k l, paymentLinks s !! k = Some l ->
                 paymentLinks s' !! k = Some l) /\
    exists links, getPaymentLinks uid s' = (Ok links, s') /\ In link links.
Proof.
  intros Hb. eexists _, _. split; [reflexivity|].
  assert (Hnone : paymentLinks s !! currentLinkId s = None).
  { destruct (paymentLinks s !! currentLinkId s) as [l|] eqn:E;
      [|reflexivity]. pose proof (Hb _ _ E). lia. }
  split; [exact Hnone|]. cbn.
  split; [apply lookup_insert_eq|]. split; [reflexivity|]. split.
  - intros k l Hl. rewrite lookup_insert_ne; [exact Hl|]. congruence.
  - eexists. split; [reflexivity|]. apply getPaymentLinks_In. cbn.
    split; [|reflexivity]. exists (currentLinkId s). apply lookup_insert_eq.
Qed.

Lemma create_link_witness :
  exists link s',
    postLink (Some 2) (Some (mkInsert (lit "https://pay.example/q") 500)) 3
      fresh_server = (Ok (JsonLink 201 link), s') /\
    paymentLinks fresh_server !! link_id link = None /\
    paymentLinks s' !! link_id link = Some link /\
    link = mkPaymentLink (currentLinkId fresh_server) 2
             (ins_url (mkInsert (lit "https://pay.example/q") 500))
             (ins_amount (mkInsert (lit "https://pay.example/q") 500))
             (lit "active") None 3 None None false /\
    (forall k l, paymentLinks fresh_server !! k = Some l ->
                 paymentLinks s' !! k = Some l) /\
    exists links, getPaymentLinks 2 s' = (Ok links, s') /\ In link links.
Proof.
  apply (create_link 2 (mkInsert (lit "https://pay.example/q") 500) 3
           fresh_server).
  intros k l. cbn. rewrite lookup_insert, lookup_empty.
  case_decide; [intros _; lia | discriminate].
Defined.

Lemma owned_link_deleted s user id out :
  owned_link
    (mkServer (delete id (paymentLinks s)) (currentLinkId s) out) user id =
  None.
Proof. unfold owned_link. cbn. rewrite lookup_delete_eq. reflexivity. Qed.

Lemma wf_deleted s id out :
  wf s -> wf (mkServer (delete id (paymentLinks s)) (currentLinkId s) out).
Proof.
  intros Hwf k l. cbn. rewrite lookup_delete.
  case_decide; [discriminate | apply Hwf].
Qed.

(** X8: deleting a link of the user. The route answers 204, the link is
    gone from the store and from the user's list while every other link
    stays; deleting it again is answered with an error, and so is a check
    of it (code NOT_FOUND), whatever the network. *)
Theorem delete_then_gone network user id now s l :
  wf s -> owned_link s user id = Some l ->
  let s' := snd (deleteLink (Some user) id s) in
  fst (deleteLink (Some user) id s) = Ok (SendStatus 204) /\
  paymentLinks s' !! id = None /\
  (forall k, k <> id -> paymentLinks s' !! k = paymentLinks s !! k) /\
  (forall links l', getPaymentLinks user s' = (Ok links, s') ->
                    In l' links -> link_id l' <> id) /\
  deleteLink (Some user) id s' =
    (Ok (JsonError 500 (lit "Payment link not found or unauthorized") None),
     s') /\
  handle network (Some user) (POST_check id now) s' =
    (Ok (JsonError 400 link_not_found_message (Some NOT_FOUND)), s').
Proof.
  intros Hwf Ho. cbv zeta. rewrite deleteLink_spec, Ho. cbn [fst snd].
  split; [reflexivity|]. split; [apply lookup_delete_eq|].
  split; [intros k Hk; apply lookup_delete_ne; congruence|].
  split; [|split].
  - intros links l' [= <-] Hin Hid.
    apply (getPaymentLinks_In
             (mkServer (delete id (paymentLinks s)) (currentLinkId s)
                (UDelete id :: outbox s))) in Hin as [[k Hk] _].
    cbn in Hk.
    rewrite lookup_delete in Hk. case_decide; [discriminate|].
    apply Hwf in Hk. congruence.
  - rewrite deleteLink_spec, owned_link_deleted. reflexivity.
  - cbn [handle]. rewrite postCheck_spec by (apply wf_deleted, Hwf).
    rewrite owned_link_deleted. reflexivity.
Qed.

Lemma delete_then_gone_witness :
  let s' := snd (deleteLink (Some 1) 1 sample_server) in
  fst (deleteLink (Some 1) 1 sample_server) = Ok (SendStatus 204) /\
  paymentLinks s' !! 1 = None /\
  (forall k, k <> 1 -> paymentLinks s' !! k = paymentLinks sample_server !! k) /\
  (forall links l', getPaymentLinks 1 s' = (Ok links, s') ->
                    In l' links -> link_id l' <> 1) /\
  deleteLink (Some 1) 1 s' =
    (Ok (JsonError 500 (lit "Payment link not found or unauthorized") None),
     s') /\
  handle (serves sample_page_success) (Some 1) (POST_check 1 4) s' =
    (Ok (JsonError 400 link_not_found_message (Some NOT_FOUND)), s').
Proof.
  apply (delete_then_gone (serves sample_page_success) 1 1 4 sample_server
           sample_link).
  - apply wf_sample.
  - reflexivity.
Defined.



(** X10: the renew route checks the new url before anything else, and
    never answers UNAUTHORIZED. A missing or empty url is refused with
    status 400 and code VALIDATION_ERROR, whatever the id, without
    effect; and in no state and for no request is the code of the
    response UNAUTHORIZED, since the link is looked up in the user's own
    list. *)
Theorem renew_validation user id body now s :
  (body = None \/ body = Some [] ->
   postRenew (Some user) id body now s =
     (Ok (JsonError 400 missing_url_message (Some VALIDATION_ERROR)), s)) /\
  exists resp s',
    postRenew (Some user) id body now s = (Ok resp, s') /\
    error_code resp <> Some UNAUTHORIZED.
Proof.
  split; [intros [-> | ->]; reflexivity|].
  unfold postRenew, try_catch, bind, getPaymentLinks.
  destruct body as [[|c w]|];
    try (eexists _, _; split; [reflexivity | discriminate]).
  destruct (List.find _ _) as [l|] eqn:E;
    [|eexists _, _; split; [reflexivity | discriminate]].
  apply find_some in E as [Hin _].
  apply getPaymentLinks_In in Hin as [_ Hu].
  apply Z.eqb_eq in Hu. rewrite Hu. cbn [negb].
  unfold updatePaymentLinkUrl, updatePaymentLinkStatus, bind, get_link.
  destruct (paymentLinks s !! id) as [l0|];
    [|eexists _, _; split; [reflexivity | discriminate]].
  cbn. rewrite lookup_insert_eq.
  eexists _, _. split; [reflexivity | discriminate].
Qed.

(** X11: how a probe failure is answered. When the fetch of the page of
    a link of the user is rejected, the check answers 400 with code
    CHECK_ERROR and the message of the rejection after a fixed prefix;
    when the response is not ok, 400 with code FETCH_ERROR and the status
    text after a fixed prefix. Either way the state is unchanged. *)
Theorem check_probe_failures network user id now s l :
  wf s -> owned_link s user id = Some l ->
  match network (url l) with
  | Rejected m =>
      handle network (Some user) (POST_check id now) s =
        (Ok (JsonError 400
               (check_failed_prefix ++
                match m with Some msg => msg | None => unknown_error end)
               (Some CHECK_ERROR)), s)
  | Response false statusText _ =>
      handle network (Some user) (POST_check id now) s =
        (Ok (JsonError 400 (fetch_failed_prefix ++ statusText)
               (Some FETCH_ERROR)), s)
  | Response true _ body =>
      checkPaymentPage network (url l) = parsePage body
  end.
Proof.
  intros Hwf Ho. cbn [handle]. rewrite (postCheck_spec _ _ _ _ _ Hwf), Ho.
  unfold checkPaymentPage.
  destruct (network (url l)) as [[m|]|[|] statusText body]; try reflexivity.
  cbn [negb]. unfold parsePage.
  destruct (includes body failure_marker); [reflexivity|]. cbv zeta.
  destruct (negb _ && negb _); reflexivity.
Qed.

Lemma check_probe_failures_witness :
  handle (fun _ => Response false (lit "Not Found") []) (Some 1)
    (POST_check 1 4) sample_server =
  (Ok (JsonError 400 (fetch_failed_prefix ++ lit "Not Found")
         (Some FETCH_ERROR)), sample_server).
Proof.
  apply (check_probe_failures (fun _ => Response false (lit "Not Found") [])
           1 1 4 sample_server sample_link).
  - apply wf_sample.
  - reflexivity.
Defined.

(** X12: what a check that reads tokens stores. The page is fetched
    from the url the link of the user had when it was looked up; other
    requests may be served while the fetch is awaited. When that page has
    no failure marker and at least one token and the link is still stored
    when the fetch returns, the link as it then is gets status "active",
    no error code and the time of the check, its transaction number
    becomes the first transaction token of the page when there is one and
    is kept otherwise, likewise its collected amount, and url, owner,
    amount and archived flag are kept; that link is answered and
    broadcast. When the link was deleted meanwhile the route answers 500
    "Payment link not found" and stores nothing. *)
Theorem check_success_stored network user id now during s l statusText page :
  wf s -> owned_link s user id = Some l ->
  network (url l) = Response true statusText page ->
  ~ has_marker page ->
  has_token transaction_at page \/ has_token amount_at page ->
  exists t a,
    carries transaction_at page t /\ carries amount_at page a /\
    Await.postCheckAwait (checkPaymentPage network) (Some user) id now
      during s =
    match paymentLinks (during s) !! id with
    | Some l1 =>
        let l' :=
          mkPaymentLink (link_id l1) (userId l1) (url l1) (amount l1)
            (lit "active") None now
            (nullish t (transactionNo l1)) (nullish a (amountAED l1))
            (archived l1) in
        (Ok (JsonLink 200 l'), stored (during s) id l' [UStatus l'])
    | None =>
        (Ok (JsonError 500 (lit "Payment link not found") None), during s)
    end.
Proof.
  intros Hwf Ho Hnet Hm Htok.
  exists (group1 (exec transactionRe page)), (group1 (exec amountRe page)).
  split; [apply transaction_carries|]. split; [apply amount_carries|].
  rewrite (postCheckAwait_spec _ _ _ _ _ _ Hwf), Ho.
  unfold checkPaymentPage. rewrite Hnet. cbn [negb].
  rewrite (parse_success_fields page Hm Htok).
  destruct (paymentLinks (during s) !! id) as [l1|]; reflexivity.
Qed.

Lemma check_success_stored_witness :
  exists t a,
    carries transaction_at sample_page_amount_only t /\
    carries amount_at sample_page_amount_only a /\
    Await.postCheckAwait (checkPaymentPage (serves sample_page_amount_only))
      (Some 1) 1 4 (fun s0 => s0) sample_server =
    match paymentLinks sample_server !! 1 with
    | Some l1 =>
        let l' :=
          mkPaymentLink (link_id l1) (userId l1) (url l1) (amount l1)
            (lit "active") None 4
            (nullish t (transactionNo l1)) (nullish a (amountAED l1))
            (archived l1) in
        (Ok (JsonLink 200 l'), stored sample_server 1 l' [UStatus l'])
    | None =>
        (Ok (JsonError 500 (lit "Payment link not found") None),
         sample_server)
    end.
Proof.
  apply (check_success_stored (serves sample_page_amount_only) 1 1 4
           (fun s0 => s0) sample_server sample_link (lit "OK")
           sample_page_amount_only).
  - apply wf_sample.
  - reflexivity.
  - reflexivity.
  - intros H. apply has_marker_includes in H. vm_compute in H. discriminate.
  - right. apply amount_matched. vm_compute. reflexivity.
Defined.

(** X13: what a check that reads the failure marker stores. The page is
    fetched from the url the link of the user had when it was looked up;
    other requests may be served while the fetch is awaited. When that
    page shows the failure marker and the link is still stored when the
    fetch returns, the link as it then is gets status "error", the
    generic error code and the time of the check, and keeps its
    transaction number, collected amount, url, owner, amount and archived
    flag. When the link was deleted meanwhile the route answers 500
    "Payment link not found" and stores nothing. *)
Theorem check_failure_stored network user id now during s l statusText page :
  wf s -> owned_link s user id = Some l ->
  network (url l) = Response true statusText page ->
  has_marker page ->
  Await.postCheckAwait (checkPaymentPage network) (Some user) id now
    during s =
  match paymentLinks (during s) !! id with
  | Some l1 =>
      let l' :=
        mkPaymentLink (link_id l1) (userId l1) (url l1) (amount l1)
          (lit "error") (Some generic_failure_code) now (transactionNo l1)
          (amountAED l1) (archived l1) in
      (Ok (JsonLink 200 l'), stored (during s) id l' [UStatus l'])
  | None =>
      (Ok (JsonError 500 (lit "Payment link not found") None), during s)
  end.
Proof.
  intros Hwf Ho Hnet Hm.
  rewrite (postCheckAwait_spec _ _ _ _ _ _ Hwf), Ho.
  unfold checkPaymentPage. rewrite Hnet. cbn [negb].
  unfold parsePage. apply has_marker_includes in Hm. rewrite Hm.
  destruct (paymentLinks (during s) !! id) as [l1|]; reflexivity.
Qed.

Lemma check_failure_stored_witness :
  Await.postCheckAwait (checkPaymentPage (serves sample_page_failed))
    (Some 1) 1 4 Await.deleted_meanwhile sample_server =
  match paymentLinks (Await.deleted_meanwhile sample_server) !! 1 with
  | Some l1 =>
      let l' :=
        mkPaymentLink (link_id l1) (userId l1) (url l1) (amount l1)
          (lit "error") (Some generic_failure_code) 4 (transactionNo l1)
          (amountAED l1) (archived l1) in
      (Ok (JsonLink 200 l'),
       stored (Await.deleted_meanwhile sample_server) 1 l' [UStatus l'])
  | None =>
      (Ok (JsonError 500 (lit "Payment link not found") None),
       Await.deleted_meanwhile sample_server)
  end.
Proof.
  apply (check_failure_stored (serves sample_page_failed) 1 1 4
           Await.deleted_meanwhile sample_server sample_link (lit "OK")
           sample_page_failed).
  - apply wf_sample.
  - reflexivity.
  - reflexivity.
  - exists [], (lit ". Amount 5.00 AED"). reflexivity.
Defined.

(** X23: archiving and then checking. Archiving a link of the user
    sets its archived flag and nothing else, and archiving it again
    leaves the store as it is; the check route does not exclude an
    archived link: it probes it and stores the result as for any other
    link, the link staying archived. *)
Theorem archive_then_check network user id now s l :
  wf s -> owned_link s user id = Some l ->
  let s1 := snd (postArchive (Some user) id s) in
  fst (postArchive (Some user) id s) = Ok (JsonLink 200 (archived_copy l)) /\
  paymentLinks s1 !! id = Some (archived_copy l) /\
  paymentLinks (snd (postArchive (Some user) id s1)) = paymentLinks s1 /\
  handle network (Some user) (POST_check id now) s1 =
    match checkPaymentPage network (url l) with
    | Ok r =>
        (Ok (JsonLink 200 (applied (archived_copy l) r now)),
         stored s1 id (applied (archived_copy l) r now)
           [UStatus (applied (archived_copy l) r now)])
    | Throw e => respond_error e s1
    end /\
  forall r, archived (applied (archived_copy l) r now) = true.
Proof.
  intros Hwf Ho. cbv zeta. rewrite postArchive_spec, Ho. cbn [fst snd].
  destruct (owned_link_Some _ _ _ _ Hwf Ho) as (Hl & Hu & Hid).
  assert (Ho1 : owned_link
                  (stored s id (archived_copy l) [UArchive (archived_copy l)])
                  user id = Some (archived_copy l))
    by (apply (owned_link_stored s user id l); [exact Ho | reflexivity]).
  assert (Hwf1 : wf (stored s id (archived_copy l) [UArchive (archived_copy l)]))
    by (apply wf_stored; assumption).
  split; [reflexivity|]. split; [apply lookup_insert_eq|].
  split; [|split; [|reflexivity]].
  - rewrite postArchive_spec, Ho1. cbn. apply insert_insert_eq.
  - cbn [handle]. rewrite (postCheck_spec _ _ _ _ _ Hwf1), Ho1. reflexivity.
Qed.

Lemma archive_then_check_witness :
  let s1 := snd (postArchive (Some 1) 1 sample_server) in
  fst (postArchive (Some 1) 1 sample_server) =
    Ok (JsonLink 200 (archived_copy sample_link)) /\
  paymentLinks s1 !! 1 = Some (archived_copy sample_link) /\
  paymentLinks (snd (postArchive (Some 1) 1 s1)) = paymentLinks s1 /\
  handle (serves sample_page_failed) (Some 1) (POST_check 1 4) s1 =
    match checkPaymentPage (serves sample_page_failed) (url sample_link) with
    | Ok r =>
        (Ok (JsonLink 200 (applied (archived_copy sample_link) r 4)),
         stored s1 1 (applied (archived_copy sample_link) r 4)
           [UStatus (applied (archived_copy sample_link) r 4)])
    | Throw e => respond_error e s1
    end /\
  forall r, archived (applied (archived_copy sample_link) r 4) = true.
Proof.
  apply (archive_then_check (serves sample_page_failed) 1 1 4 sample_server
           sample_link).
  - apply wf_sample.
  - reflexivity.
Defined.

End ApiFacts.

(** ** Facts about the user methods of the storage *)

Module UsersFacts.

Import Users.

Lemma indexed_empty : indexed empty.
Proof. split; intros k u; cbn; rewrite lookup_empty; discriminate. Qed.

Lemma createUser_keeps_indexed userData s :
  indexed s -> indexed (snd (createUser userData s)).
Proof.
  intros [Hu Hn]. split; cbn.
  - intros k u. rewrite lookup_insert. case_decide.
    + intros [= <-]. subst k. cbn. split; [reflexivity | lia].
    + intros H'. destruct (Hu _ _ H'). split; [assumption | lia].
  - intros n u. rewrite lookup_insert. case_decide.
    + intros [= <-]. subst n. cbn. split; [reflexivity|].
      apply lookup_insert_eq.
    + intros H'. destruct (Hn _ _ H') as [Hname Hid]. split; [assumption|].
      rewrite lookup_insert_ne; [exact Hid|].
      destruct (Hu _ _ Hid). lia.
Qed.

(** X14: creating a user in a state built by the storage. The new user
    gets the id of the counter and is found by that id and by its name;
    every user stored before is still found by its id, other names
    resolve as before, and the two maps still agree. *)
Theorem createUser_indexed userData s :
  indexed s ->
  let user := fst (createUser userData s) in
  let s' := snd (createUser userData s) in
  indexed s' /\
  user = mkUser (currentUserId s) (ins_username userData)
           (ins_password userData) /\
  getUser (user_id user) s' = Some user /\
  getUserByUsername (ins_username userData) s' = Some user /\
  (forall k old, getUser k s = Some old -> getUser k s' = Some old) /\
  (forall n, n <> ins_username userData ->
             getUserByUsername n s' = getUserByUsername n s).
Proof.
  intros Hi. cbv zeta. split; [apply createUser_keeps_indexed, Hi|].
  destruct Hi as [Hu Hn]. unfold getUser, getUserByUsername. cbn.
  split; [reflexivity|]. split; [apply lookup_insert_eq|].
  split; [apply lookup_insert_eq|]. split.
  - intros k old Hk. rewrite lookup_insert_ne; [exact Hk|].
    destruct (Hu _ _ Hk). lia.
  - intros n Hne. apply lookup_insert_ne. congruence.
Qed.

Lemma createUser_indexed_witness :
  let user := fst (createUser alice empty) in
  let s' := snd (createUser alice empty) in
  indexed s' /\
  user = mkUser (currentUserId empty) (ins_username alice)
           (ins_password alice) /\
  getUser (user_id user) s' = Some user /\
  getUserByUsername (ins_username alice) s' = Some user /\
  (forall k old, getUser k empty = Some old -> getUser k s' = Some old) /\
  (forall n, n <> ins_username alice ->
             getUserByUsername n s' = getUserByUsername n empty).
Proof.
  apply (createUser_indexed alice empty).
  split; intros k u; cbn; rewrite lookup_empty; discriminate.
Defined.

(** X15: the storage does not refuse a user name that is taken. After
    creating a user whose name another user has, the name resolves to the
    new user, who has a different id, and the earlier user remains stored
    under its id. *)
Theorem createUser_same_name userData s old :
  indexed s ->
  getUserByUsername (ins_username userData) s = Some old ->
  let user := fst (createUser userData s) in
  let s' := snd (createUser userData s) in
  getUserByUsername (ins_username userData) s' = Some user /\
  user_id user <> user_id old /\
  getUser (user_id old) s' = Some old /\
  getUser (user_id user) s' = Some user.
Proof.
  intros [Hu Hn] Hold. cbv zeta. unfold getUser, getUserByUsername in *. cbn.
  destruct (Hn _ _ Hold) as [_ Hid]. destruct (Hu _ _ Hid) as [_ Hlt].
  split; [apply lookup_insert_eq|]. split; [lia|].
  split; [|apply lookup_insert_eq].
  rewrite lookup_insert_ne; [exact Hid | lia].
Qed.

Lemma createUser_same_name_witness :
  let s := snd (createUser alice empty) in
  let user := fst (createUser alice_again s) in
  let s' := snd (createUser alice_again s) in
  getUserByUsername (ins_username alice_again) s' = Some user /\
  user_id user <> user_id (fst (createUser alice empty)) /\
  getUser (user_id (fst (createUser alice empty))) s' =
    Some (fst (createUser alice empty)) /\
  getUser (user_id user) s' = Some user.
Proof.
  apply (createUser_same_name alice_again (snd (createUser alice empty))
           (fst (createUser alice empty))).
  - apply createUser_keeps_indexed, indexed_empty.
  - reflexivity.
Defined.

End UsersFacts.

(** ** More facts about the client channel *)

Module ChannelInvFacts.

Import Channel ChannelInv.

(** X16: the re-entrancy guard. Calling [connectWebSocket] again right
    after a call creates no second socket: while the socket [ws] refers
    to is connecting or open, the call changes nothing. *)
Theorem connect_twice c :
  connectWebSocket (connectWebSocket c) = connectWebSocket c /\
  (ws_readyState c = Some CONNECTING \/ ws_readyState c = Some OPEN ->
   connectWebSocket c = c).
Proof.
  assert (Hfix : forall c0,
            ws_readyState c0 = Some CONNECTING \/ ws_readyState c0 = Some OPEN ->
            connectWebSocket c0 = c0).
  { intros c0 [H | H]; unfold connectWebSocket; rewrite H; reflexivity. }
  split; [|apply Hfix].
  destruct (ws_readyState c) as [[| | |]|] eqn:E;
    try (rewrite !(Hfix c) by auto; reflexivity);
    apply Hfix; left; unfold connectWebSocket; rewrite E;
    unfold ws_readyState; cbn [ws sockets];
    apply list_lookup_middle; reflexivity.
Qed.

Lemma backoff_delay a :
  0 <= a < MAX_RECONNECT_ATTEMPTS ->
  RECONNECT_DELAY <= RECONNECT_DELAY * 2 ^ (a + 1 - 1) <= 16 * RECONNECT_DELAY.
Proof.
  unfold MAX_RECONNECT_ATTEMPTS, RECONNECT_DELAY. intros Ha.
  assert (a = 0 \/ a = 1 \/ a = 2 \/ a = 3 \/ a = 4) as H by lia.
  destruct H as [-> | [-> | [-> | [-> | ->]]]]; cbn; lia.
Qed.

Lemma bounded_connect c : bounded c -> bounded (connectWebSocket c).
Proof.
  unfold connectWebSocket. destruct (ws_readyState c) as [[| | |]|]; auto.
Qed.

Lemma bounded_step e c c' : bounded c -> step e c = Some c' -> bounded c'.
Proof.
  intros [Hn Ht]. destruct e as [| |i|i b|i|n|i]; cbn [step].
  - intros [= <-]. apply bounded_connect. split; assumption.
  - intros [= <-]. unfold cleanup.
    destruct (ws c) as [i|]; [|split; assumption].
    destruct (ws_readyState c) as [[| | |]|]; split; assumption.
  - destruct (sockets c !! i) as [[| | |]|]; try discriminate.
    intros [= <-]. split; [cbn; unfold MAX_RECONNECT_ATTEMPTS; lia | exact Ht].
  - destruct (sockets c !! i) as [[| | |]|]; try discriminate.
    intros [= <-]. destruct b; split; assumption.
  - assert (Hclose : forall c0, bounded c0 -> bounded (onclose c0)).
    { intros c0 [Hn0 Ht0]. unfold onclose.
      destruct (reconnectAttempts c0 <? MAX_RECONNECT_ATTEMPTS) eqn:E.
      - apply Z.ltb_lt in E. split; cbn; [lia|].
        apply Forall_app. split; [exact Ht0|].
        constructor; [|constructor]. apply backoff_delay. lia.
      - split; assumption. }
    destruct (sockets c !! i) as [[| | |]|]; try discriminate;
      intros [= <-]; apply Hclose; split; assumption.
  - destruct (timers c !! n); [|discriminate]. intros [= <-].
    apply bounded_connect. split; [exact Hn|]. cbn. apply Forall_delete, Ht.
  - destruct (sockets c !! i) as [[| | |]|]; try discriminate.
    intros [= <-]. split; assumption.
Qed.

Lemma bounded_run es c c' : bounded c -> run es c = Some c' -> bounded c'.
Proof.
  revert c. induction es as [|e es IH]; intros c Hc; cbn [run].
  - intros [= <-]. exact Hc.
  - destruct (step e c) as [c1|] eqn:E; [|discriminate].
    apply IH. exact (bounded_step e c c1 Hc E).
Qed.

(** X17: the backoff is bounded. After any sequence of events from the
    initial state (mounts, unmounts, socket events, timers), the
    reconnection counter lies between 0 and 5 and every pending
    reconnection delay lies between 1000 ms and 16000 ms. *)
Theorem backoff_bounded es c :
  run es init = Some c ->
  0 <= reconnectAttempts c <= 5 /\
  Forall (fun d => 1000 <= d <= 16000) (timers c).
Proof.
  intros H. apply (bounded_run es init c); [|exact H].
  split; [cbn; unfold MAX_RECONNECT_ATTEMPTS; lia | constructor].
Qed.

Lemma backoff_bounded_witness :
  let c :=
    mkClient None 5 [CLOSED; CLOSED; CLOSED; CLOSED; CLOSED] [16000]
      [(1, 1000); (2, 2000); (3, 4000); (4, 8000); (5, 16000)] 0 in
  0 <= reconnectAttempts c <= 5 /\
  Forall (fun d => 1000 <= d <= 16000) (timers c).
Proof.
  apply (backoff_bounded five_failures_trace). reflexivity.
Defined.

Lemma single_connect c : single c -> single (connectWebSocket c).
Proof.
  intros Hs. unfold connectWebSocket.
  destruct (ws_readyState c) as [r0|] eqn:E.
  - destruct r0; try exact Hs; intros i r; cbn [sockets ws];
      (destruct (decide (i < length (sockets c))%nat) as [Hlt | Hge];
       [ rewrite lookup_app_l by exact Hlt; intros Hi;
         destruct (Hs i r Hi) as [-> | [Hws Hr]]; [left; reflexivity|];
         unfold ws_readyState in E; rewrite Hws, Hi in E;
         destruct Hr; congruence
       | rewrite lookup_app_r by lia;
         destruct (i - length (sockets c))%nat as [|k] eqn:Ek;
         [ intros [= <-]; right; split; [f_equal; lia | auto]
         | cbn; try rewrite lookup_nil; discriminate ] ]).
  - intros i r; cbn [sockets ws].
    destruct (decide (i < length (sockets c))%nat) as [Hlt | Hge].
    + rewrite lookup_app_l by exact Hlt. intros Hi.
      destruct (Hs i r Hi) as [-> | [Hws Hr]]; [left; reflexivity|].
      unfold ws_readyState in E. rewrite Hws, Hi in E. discriminate.
    + rewrite lookup_app_r by lia.
      destruct (i - length (sockets c))%nat as [|k] eqn:Ek.
      * intros [= <-]. right. split; [f_equal; lia | auto].
      * cbn. try rewrite lookup_nil. discriminate.
Qed.

Lemma single_step e c c' :
  single c -> begins_closing e = false -> step e c = Some c' -> single c'.
Proof.
  intros Hs He. destruct e as [| |i|i b|i|n|i]; cbn [step]; try discriminate.
  - intros [= <-]. apply single_connect, Hs.
  - destruct (sockets c !! i) as [[| | |]|] eqn:Ei; try discriminate.
    intros [= <-]. intros j r. cbn [onopen set_readyState sockets ws].
    destruct (Hs i _ Ei) as [? | [Hws _]]; [discriminate|].
    destruct (decide (i = j)) as [<- | Hne].
    + rewrite list_lookup_insert_eq by (eapply lookup_lt_Some; exact Ei).
      intros [= <-]. right. auto.
    + rewrite list_lookup_insert_ne by exact Hne. apply Hs.
  - destruct (sockets c !! i) as [[| | |]|]; try discriminate.
    intros [= <-]. destruct b; exact Hs.
  - assert (Hclosed : forall r0, sockets c !! i = Some r0 -> r0 <> CLOSED ->
              single (onclose (set_readyState i CLOSED c))).
    { intros r0 Ei Hr0 j r.
      destruct (Hs i _ Ei) as [? | [Hws _]]; [contradiction|].
      assert (Hsock : sockets (onclose (set_readyState i CLOSED c)) =
                      <[i := CLOSED]> (sockets c)).
      { unfold onclose. destruct (_ <? _); reflexivity. }
      rewrite Hsock. destruct (decide (i = j)) as [<- | Hne].
      - rewrite list_lookup_insert_eq by (eapply lookup_lt_Some; exact Ei).
        intros [= <-]. left. reflexivity.
      - rewrite list_lookup_insert_ne by exact Hne. intros Hj.
        destruct (Hs j r Hj) as [-> | [Hws' _]]; [left; reflexivity|].
        congruence. }
    destruct (sockets c !! i) as [[| | |]|] eqn:Ei; try discriminate;
      intros [= <-]; eapply Hclosed; (reflexivity || discriminate).
  - destruct (timers c !! n); [|discriminate]. intros [= <-].
    apply single_connect. exact Hs.
Qed.

Lemma single_run es c c' :
  single c -> forallb (fun e => negb (begins_closing e)) es = true ->
  run es c = Some c' -> single c'.
Proof.
  revert c. induction es as [|e es IH]; intros c Hc; cbn [run forallb].
  - intros _ [= <-]. exact Hc.
  - intros Hall. apply andb_true_iff in Hall as [He Hes].
    apply negb_true_iff in He.
    destruct (step e c) as [c1|] eqn:E; [|discriminate].
    apply IH; [exact (single_step e c c1 Hc He E) | exact Hes].
Qed.

(** X18: one connection at a time, as long as no socket is closing.
    After any sequence of events from the initial state in which the
    view is never closed and the server never starts a closing handshake
    (connections end only by failing or being dropped), at most one
    socket is not closed, and it is the socket [ws] refers to. *)
Theorem single_connection es c i j ri rj :
  forallb (fun e => negb (begins_closing e)) es = true ->
  run es init = Some c ->
  sockets c !! i = Some ri -> ri <> CLOSED ->
  sockets c !! j = Some rj -> rj <> CLOSED ->
  i = j /\ ws c = Some i.
Proof.
  intros Hes Hrun Hi Hri Hj Hrj.
  assert (Hs : single c).
  { apply (single_run es init c); [|exact Hes | exact Hrun].
    intros k r. cbn. rewrite lookup_nil. discriminate. }
  destruct (Hs i ri Hi) as [? | [Hwi _]]; [contradiction|].
  destruct (Hs j rj Hj) as [? | [Hwj _]]; [contradiction|].
  split; [congruence | exact Hwi].
Qed.

Lemma single_connection_witness :
  (1 = 1)%nat /\
  ws (mkClient (Some 1%nat) 0 [CLOSED; OPEN] [] [(1, 1000)] 0) = Some 1%nat.
Proof.
  apply (single_connection
           [Mount; SocketClose 0; TimerFires 0; SocketOpen 1]
           (mkClient (Some 1%nat) 0 [CLOSED; OPEN] [] [(1, 1000)] 0)
           1%nat 1%nat OPEN OPEN);
    (reflexivity || discriminate).
Defined.

Lemma quiet_step e c c' :
  quiet e = true -> step e c = Some c' ->
  reconnectAttempts c' = reconnectAttempts c /\ timers c' = timers c /\
  length (sockets c') = length (sockets c).
Proof.
  destruct e as [| |i|i b|i|n|i]; cbn [quiet step]; try discriminate;
    intros _; destruct (sockets c !! i) as [[| | |]|]; try discriminate;
    intros [= <-].
  - destruct b; auto.
  - cbn. rewrite length_insert. auto.
Qed.

Lemma quiet_run es c c' :
  forallb quiet es = true -> run es c = Some c' ->
  reconnectAttempts c' = reconnectAttempts c /\ timers c' = timers c /\
  length (sockets c') = length (sockets c).
Proof.
  revert c. induction es as [|e es IH]; intros c; cbn [forallb run].
  - intros _ [= <-]. auto.
  - intros Hall. apply andb_true_iff in Hall as [He Hes].
    destruct (step e c) as [c1|] eqn:E; [|discriminate]. intros Hrun.
    destruct (quiet_step e c c1 He E) as (Hn & Ht & Hl).
    destruct (IH c1 Hes Hrun) as (Hn' & Ht' & Hl').
    split; [congruence|]. split; congruence.
Qed.

(** X19: a connection that opens restores the whole backoff. When a
    socket opens and is later lost, with only messages and starts of
    closing handshakes in between (on any socket), the counter is 1 and
    the reconnection is scheduled after the base delay of 1000 ms,
    whatever the counter was before the socket opened. *)
Theorem open_resets_backoff c i es c1 c1' c2 :
  step (SocketOpen i) c = Some c1 ->
  forallb quiet es = true -> run es c1 = Some c1' ->
  step (SocketClose i) c1' = Some c2 ->
  reconnectAttempts c2 = 1 /\ ws c2 = None /\
  timers c2 = timers c ++ [RECONNECT_DELAY] /\
  sockets c2 !! i = Some CLOSED.
Proof.
  intros Hopen Hq Hrun Hclose.
  destruct (quiet_run es c1 c1' Hq Hrun) as (Hn & Ht & Hlen).
  assert (H1 : reconnectAttempts c1 = 0 /\ timers c1 = timers c).
  { cbn [step] in Hopen.
    destruct (sockets c !! i) as [[| | |]|]; try discriminate.
    injection Hopen as <-. auto. }
  destruct H1 as [Hn1 Ht1]. rewrite Hn1 in Hn. rewrite Ht1 in Ht.
  cbn [step] in Hclose.
  destruct (sockets c1' !! i) as [r|] eqn:Ei; [|discriminate].
  pose proof (lookup_lt_Some _ _ _ Ei) as Hlt.
  assert (Hc2 : c2 = onclose (set_readyState i CLOSED c1'))
    by (destruct r; congruence).
  subst c2. unfold onclose. cbn [set_readyState reconnectAttempts].
  rewrite Hn. cbn. rewrite Ht.
  repeat split. apply list_lookup_insert_eq. exact Hlt.
Qed.

Lemma open_resets_backoff_witness :
  let c2 := mkClient None 1 [CLOSED; CLOSED] [1000] [(1, 1000); (1, 1000)] 1 in
  reconnectAttempts c2 = 1 /\ ws c2 = None /\
  timers c2 =
    timers (mkClient (Some 1%nat) 1 [CLOSED; CONNECTING] [] [(1, 1000)] 0)
    ++ [RECONNECT_DELAY] /\
  sockets c2 !! 1%nat = Some CLOSED.
Proof.
  apply (open_resets_backoff
           (mkClient (Some 1%nat) 1 [CLOSED; CONNECTING] [] [(1, 1000)] 0)
           1%nat
           [SocketMessage 1 true; SocketClosing 1]
           (mkClient (Some 1%nat) 0 [CLOSED; OPEN] [] [(1, 1000)] 0)
           (mkClient (Some 1%nat) 0 [CLOSED; CLOSING] [] [(1, 1000)] 1));
    reflexivity.
Defined.

Lemma invalidations_connect c :
  invalidations (connectWebSocket c) = invalidations c.
Proof.
  unfold connectWebSocket.
  destruct (ws_readyState c) as [[| | |]|]; reflexivity.
Qed.

Lemma invalidations_step e c c' :
  step e c = Some c' ->
  invalidations c' =
  (invalidations c + if is_update_message e then 1 else 0)%nat.
Proof.
  destruct e as [| |i|i b|i|n|i]; cbn [step is_update_message].
  - intros [= <-]. rewrite invalidations_connect. lia.
  - intros [= <-]. unfold cleanup. destruct (ws c); [|lia].
    destruct (ws_readyState c) as [[| | |]|]; cbn; lia.
  - destruct (sockets c !! i) as [[| | |]|]; try discriminate.
    intros [= <-]. cbn. lia.
  - destruct (sockets c !! i) as [[| | |]|]; try discriminate.
    intros [= <-]. destruct b; cbn; lia.
  - destruct (sockets c !! i) as [[| | |]|]; try discriminate;
      intros [= <-]; unfold onclose; destruct (_ <? _); cbn; lia.
  - destruct (timers c !! n); [|discriminate]. intros [= <-].
    rewrite invalidations_connect. cbn. lia.
  - destruct (sockets c !! i) as [[| | |]|]; try discriminate.
    intros [= <-]. cbn. lia.
Qed.

(** X20: the channel only signals. Over any sequence of events, the
    cached list of links is invalidated once for each message delivered
    that is a link-update notification, and by nothing else: no other
    message and no connection event invalidates it. *)
Theorem invalidations_count es c c' :
  run es c = Some c' ->
  invalidations c' =
  (invalidations c + length (List.filter is_update_message es))%nat.
Proof.
  revert c. induction es as [|e es IH]; intros c; cbn [run List.filter].
  - intros [= <-]. cbn. lia.
  - destruct (step e c) as [c1|] eqn:E; [|discriminate].
    intros H. rewrite (IH c1 H), (invalidations_step e c c1 E).
    destruct (is_update_message e); cbn [length]; lia.
Qed.

Lemma invalidations_count_witness :
  invalidations (mkClient (Some 0%nat) 0 [OPEN] [] [] 2) =
  (invalidations init +
   length (List.filter is_update_message
             [Mount; SocketOpen 0; SocketMessage 0 true;
              SocketMessage 0 false; SocketMessage 0 true]))%nat.
Proof.
  apply (invalidations_count
           [Mount; SocketOpen 0; SocketMessage 0 true;
            SocketMessage 0 false; SocketMessage 0 true] init).
  reflexivity.
Defined.

End ChannelInvFacts.

(** ** Facts about the tabs of the grid *)

Module ViewFacts.

Import Grid View.

Lemma insert_sorted_perm cmp x l : Permutation (insert_sorted cmp x l) (x :: l).
Proof.
  induction l as [|y l IH]; cbn [insert_sorted]; [reflexivity|].
  destruct (cmp x y <=? 0); [reflexivity|].
  rewrite IH. apply perm_swap.
Qed.

Lemma sort_perm cmp l : Permutation (sort cmp l) l.
Proof.
  induction l as [|x l IH]; cbn [sort]; [reflexivity|].
  rewrite insert_sorted_perm, IH. reflexivity.
Qed.

Lemma sort_unsorted l : sort (compare false) l = l.
Proof.
  induction l as [|x l IH]; cbn [sort]; [reflexivity|].
  rewrite IH. destruct l; reflexivity.
Qed.

Lemma insert_descending x l :
  descending l -> descending (insert_sorted (compare true) x l).
Proof.
  induction l as [|y l IH]; cbn [insert_sorted descending].
  - intros _. split; [intros y [] | exact I].
  - intros [Hy Hl]. unfold compare at 1. cbn [negb].
    destruct (amount y - amount x <=? 0) eqn:E.
    + apply Z.leb_le in E. cbn [descending]. split; [|split; assumption].
      intros z [<- | Hz]; [lia|]. specialize (Hy z Hz). lia.
    + apply Z.leb_gt in E. cbn [descending]. split; [|apply IH, Hl].
      intros z Hz.
      apply (Permutation_in _ (insert_sorted_perm _ x l)) in Hz.
      destruct Hz as [<- | Hz]; [lia | apply Hy, Hz].
Qed.

Lemma insert_stable b x l (v : Z) :
  List.filter (fun y => amount y =? v) (insert_sorted (compare b) x l) =
  List.filter (fun y => amount y =? v) (x :: l).
Proof.
  induction l as [|y l IH]; cbn [insert_sorted]; [reflexivity|].
  destruct (compare b x y <=? 0) eqn:E; [reflexivity|].
  apply Z.leb_gt in E. unfold compare in E. destruct b; cbn [negb] in E; [|lia].
  cbn [List.filter] in *. rewrite IH.
  destruct (amount x =? v) eqn:Ex; [|reflexivity].
  apply Z.eqb_eq in Ex. destruct (amount y =? v) eqn:Ey; [|reflexivity].
  apply Z.eqb_eq in Ey. lia.
Qed.

(** X21: the sorted copy of the links. It holds the same links as the
    list; without the sort option it is the list itself; with the option
    the amounts are in descending order, and links of equal amount keep
    the order they had in the list. *)
Theorem sortedLinks_sorted sortByAmount links :
  Permutation (sortedLinks sortByAmount links) links /\
  (sortByAmount = false -> sortedLinks sortByAmount links = links) /\
  (sortByAmount = true -> descending (sortedLinks sortByAmount links)) /\
  forall v,
    List.filter (fun l => amount l =? v) (sortedLinks sortByAmount links) =
    List.filter (fun l => amount l =? v) links.
Proof.
  unfold sortedLinks. split; [apply sort_perm|].
  split; [intros ->; apply sort_unsorted|]. split.
  - intros ->. induction links as [|x l IH]; cbn [sort]; [exact I|].
    apply insert_descending, IH.
  - intros v. induction links as [|x l IH]; cbn [sort]; [reflexivity|].
    rewrite insert_stable. cbn [List.filter]. rewrite IH. reflexivity.
Qed.

Lemma filter_perm {A} (f : A -> bool) l l' :
  Permutation l l' -> Permutation (List.filter f l) (List.filter f l').
Proof.
  induction 1 as [|x l l' _ IH|x y l|l l' l'' _ IH1 _ IH2]; cbn [List.filter].
  - reflexivity.
  - destruct (f x); [constructor|]; exact IH.
  - destruct (f x), (f y); try reflexivity. apply perm_swap.
  - etransitivity; eassumption.
Qed.

Lemma filter_split {A} (f : A -> bool) l :
  Permutation (List.filter f l ++ List.filter (fun x => negb (f x)) l) l.
Proof.
  induction l as [|x l IH]; cbn [List.filter]; [reflexivity|].
  destruct (f x); cbn [negb app].
  - constructor. exact IH.
  - rewrite <- Permutation_middle. constructor. exact IH.
Qed.

Lemma tick_filter links :
  tick (List.map Some links) =
  List.map link_id (List.filter (fun l => negb (archived l)) links).
Proof.
  induction links as [|l links IH]; [reflexivity|].
  cbn [List.map tick check_issued List.filter].
  destruct (negb (archived l)); cbn [List.map]; rewrite IH; reflexivity.
Qed.

(** X22: the two tabs and the interval. Without a date range every link
    is shown in exactly one of the two tabs; the active tab shows the
    links that are not archived and the archived tab only archived links
    that pass the date test; and the links the interval checks on a tick
    are exactly the links of the active tab (in the same order when the
    list is not sorted by amount). *)
Theorem tabs_and_tick sortByAmount in_range links :
  Permutation
    (activeLinks sortByAmount links ++
     filteredArchivedLinks sortByAmount None links) links /\
  (forall l, In l (activeLinks sortByAmount links) <->
             In l links /\ archived l = false) /\
  (forall l, In l (filteredArchivedLinks sortByAmount in_range links) <->
             In l links /\ archived l = true /\
             match in_range with
             | None => True
             | Some test => test (lastChecked l) = true
             end) /\
  Permutation (tick (List.map Some links))
    (List.map link_id (activeLinks sortByAmount links)) /\
  (sortByAmount = false ->
   tick (List.map Some links) =
   List.map link_id (activeLinks sortByAmount links)).
Proof.
  pose proof (sort_perm (compare sortByAmount) links) as Hp.
  unfold activeLinks, filteredArchivedLinks, sortedLinks.
  split; [|split; [|split; [|split]]].
  - rewrite <- Hp at 3.
    rewrite <- (filter_split (fun l => negb (archived l))
                  (sort (compare sortByAmount) links)) at 3.
    apply Permutation_app_head.
    erewrite filter_ext; [reflexivity|].
    intros l. cbn. destruct (archived l); reflexivity.
  - intros l. rewrite filter_In, negb_true_iff.
    split; intros [Hin Ha]; (split; [|exact Ha]).
    + exact (Permutation_in _ Hp Hin).
    + exact (Permutation_in _ (Permutation_sym Hp) Hin).
  - intros l. rewrite filter_In.
    split.
    + intros [Hin Ht]. split; [exact (Permutation_in _ Hp Hin)|].
      destruct (archived l); cbn [negb] in Ht; [|discriminate].
      split; [reflexivity|]. destruct in_range; [exact Ht | exact I].
    + intros (Hin & Ha & Ht).
      split; [exact (Permutation_in _ (Permutation_sym Hp) Hin)|].
      rewrite Ha. cbn [negb]. destruct in_range; [exact Ht | reflexivity].
  - rewrite tick_filter. apply Permutation_map, filter_perm.
    symmetry. exact Hp.
  - intros ->. rewrite tick_filter, sort_unsorted. reflexivity.
Qed.

End ViewFacts.
